(** * MathCosmos: the particle generator and the morph driver

    A shallow embedding of [src/components/MathGenerators.ts]
    ([generateParticles]) and of the interpolation loop of
    [src/components/Scene.tsx] (the [useFrame] callback of [Particles]).

    The TypeScript code computes with JavaScript numbers and stores its
    results in [Float32Array]s.  The embedding is written once, over an
    interface of number operations ([Arith], [MathLib]); it is then read

    - over the real numbers ([R_Arith], [R_MathLib]): exact arithmetic,
      the store into a [Float32Array] rounds nothing;
    - over the real numbers with a rounding store ([S_Arith]): exact
      arithmetic, and the store into a [Float32Array] rounds to the
      nearest binary32 number;
    - over the reals extended with one non-finite element ([X_Arith],
      [X_MathLib]): exact arithmetic in which a division by zero, an
      [acos] outside [-1, 1], a square root of a negative number produce
      the non-finite element, as NaN and the infinities do;
    - over the rationals ([Q_Arith]): exact and executable, for the
      code that only adds, subtracts, multiplies and divides;
    - over binary64 with binary32 stores ([F_Arith]): the arithmetic
      JavaScript runs, executable, for the same part of the code.

    [Math.random] is an oracle: the sequence of its results is a function
    [rng : nat -> num], and the code threads the number of draws made. *)

From Stdlib Require Import String.
From Stdlib Require Import ZArith List Bool Arith Lia.
From Stdlib Require Import QArith Qabs Qreals.
From Stdlib Require Import Reals Lra.
From Stdlib Require Floats.
Import ListNotations.

Close Scope Q_scope.
Close Scope R_scope.
Open Scope nat_scope.

Set Implicit Arguments.

(** ** Numbers *)

(** The operations of the language on numbers that the two source files
    use.  [num_lt] is [<] (and [>] with the arguments exchanged), [num_eq]
    is [===] on numbers, [Math_fround] is the rounding a store into a
    [Float32Array] performs. *)
Class Arith (num : Type) : Type := {
  num_of_Z : Z -> num;
  num_add : num -> num -> num;
  num_sub : num -> num -> num;
  num_mul : num -> num -> num;
  num_div : num -> num -> num;
  num_neg : num -> num;
  Math_abs : num -> num;
  num_lt : num -> num -> bool;
  num_eq : num -> num -> bool;
  Math_fround : num -> num
}.

(** The functions of [Math] and the remainder operator [%] on numbers
    that are not integers. *)
Class MathLib (num : Type) : Type := {
  Math_PI : num;
  Math_sin : num -> num;
  Math_cos : num -> num;
  Math_acos : num -> num;
  Math_sqrt : num -> num;
  Math_exp : num -> num;
  Math_cbrt : num -> num;
  Math_pow : num -> num -> num;
  Math_floor : num -> num;
  num_rem : num -> num -> num
}.

Declare Scope js_scope.
Delimit Scope js_scope with js.
Infix "+" := num_add : js_scope.
Infix "-" := num_sub : js_scope.
Infix "*" := num_mul : js_scope.
Infix "/" := num_div : js_scope.
Notation "- x" := (num_neg x) : js_scope.
Notation "x <? y" := (num_lt x y) : js_scope.
Notation "x >? y" := (num_lt y x) : js_scope.

Section Literals.
Context {num : Type} {A : Arith num}.

(** An integer literal, and a loop index or a count used as a number. *)
Definition int (z : Z) : num := num_of_Z z.
Definition idx (n : nat) : num := num_of_Z (Z.of_nat n).

(** A decimal literal [p/q], [q] a power of ten: [0.005] is [dec 5 1000].
    Over binary64 the quotient of two small integers is rounded once, so
    it is the double the literal denotes. *)
Definition dec (p q : Z) : num := (int p / int q)%js.
End Literals.

(** ** The enumeration of shapes, [src/types.ts] *)

Inductive ShapeType : Type :=
  | Sierpinski | Mobius | Heart | Penrose | Lorenz | Galaxy | DNA | Sphere
  | Klein | Trefoil | Rossler | Clifford | Hourglass | Warp | Quantum
  | Flower | BlackHole | Lissajous | GravityWave | Hypercube.

(** The members of the enumeration are strings. *)
Definition ShapeType_value (s : ShapeType) : string :=
  match s with
  | Sierpinski => "Sierpinski Triangle"
  | Mobius => "Mobius Strip"
  | Heart => "Cartesian Heart"
  | Penrose => "Penrose Structure"
  | Lorenz => "Lorenz Attractor"
  | Galaxy => "Spiral Galaxy"
  | DNA => "DNA Double Helix"
  | Sphere => "Fibonacci Sphere"
  | Klein => "Klein Bottle"
  | Trefoil => "Trefoil Knot"
  | Rossler => "Rossler Attractor"
  | Clifford => "Clifford Torus"
  | Hourglass => "Spacetime Hourglass"
  | Warp => "Warp Tunnel"
  | Quantum => "Quantum Cloud"
  | Flower => "Exotic Flower"
  | BlackHole => "Black Hole Accretion"
  | Lissajous => "Lissajous Curve"
  | GravityWave => "Gravity Wave"
  | Hypercube => "Hypercube Projection"
  end%string.

Definition all_shapes : list ShapeType :=
  [Sierpinski; Mobius; Heart; Penrose; Lorenz; Galaxy; DNA; Sphere; Klein;
   Trefoil; Rossler; Clifford; Hourglass; Warp; Quantum; Flower; BlackHole;
   Lissajous; GravityWave; Hypercube].

(** The [switch (shape)] of [generateParticles] compares the value it is
    given with the members; a value that is none of them takes the
    [default] branch. *)
Definition switch_case (shape : string) : option ShapeType :=
  find (fun s => String.eqb (ShapeType_value s) shape) all_shapes.

(** ** The random source and the exceptions *)

(** A computation that draws from [Math.random]: it is given the number of
    draws made so far and returns its result with the new number of draws,
    or [None] when it throws. *)
Definition Rand (T : Type) : Type := nat -> option (T * nat).

Definition ret {T : Type} (x : T) : Rand T := fun k => Some (x, k).

Definition bind {T U : Type} (c : Rand T) (f : T -> Rand U) : Rand U :=
  fun k => match c k with
           | Some (x, k') => f x k'
           | None => None
           end.

(** Reading a property of [undefined] throws a [TypeError]. *)
Definition throw {T : Type} : Rand T := fun _ => None.

Declare Scope rand_scope.
Delimit Scope rand_scope with rand.
Notation "x <- c ;; k" := (bind c (fun x => k))
  (at level 61, c at next level, right associativity) : rand_scope.

(** ** [THREE.Vector3], the part the generator uses *)

Record Vector3 (num : Type) : Type := mkVector3 { vx : num; vy : num; vz : num }.

Section Vectors.
Context {num : Type} {A : Arith num}.
Local Open Scope js_scope.

(** [v.lerp(w, alpha)] of three.js: each component moves by
    [(w - v) * alpha]. *)
Definition lerp (v w : Vector3 num) (alpha : num) : Vector3 num :=
  mkVector3 (vx v + (vx w - vx v) * alpha)
            (vy v + (vy w - vy v) * alpha)
            (vz v + (vz w - vz v) * alpha).

(** [arr[k]] for a number [k]: the element whose index equals [k],
    [undefined] ([None]) when there is none. *)
Fixpoint array_get_from {T : Type} (j : nat) (arr : list T) (k : num)
  : option T :=
  match arr with
  | [] => None
  | a :: rest => if num_eq k (idx j) then Some a
                 else array_get_from (S j) rest k
  end.

Definition array_get {T : Type} (arr : list T) (k : num) : option T :=
  array_get_from 0 arr k.
End Vectors.

(** ** Typed arrays *)

Section TypedArrays.
Context {num : Type} {A : Arith num}.

(** [new Float32Array(n)]: [n] zeros. *)
Definition Float32Array (n : nat) : list num := repeat (int 0) n.

(** The write of an element; a write outside the array is ignored. *)
Fixpoint update (arr : list num) (i : nat) (v : num) : list num :=
  match arr, i with
  | [], _ => []
  | _ :: rest, O => v :: rest
  | a :: rest, S i' => a :: update rest i' v
  end.

(** [arr[i] = v] on a [Float32Array]: the value is rounded to binary32. *)
Definition store (arr : list num) (i : nat) (v : num) : list num :=
  update arr i (Math_fround v).
End TypedArrays.

(** ** The generator, [src/components/MathGenerators.ts] *)

Section Generator.
Context {num : Type} {A : Arith num} {M : MathLib num}.

(** The successive results of [Math.random()]. *)
Variable rng : nat -> num.

Local Open Scope js_scope.
Local Open Scope rand_scope.

Definition Math_random : Rand num := fun k => Some (rng k, S k).

(** [const random = (min, max) => Math.random() * (max - min) + min] *)
Definition random (min max : num) : Rand num :=
  r <- Math_random ;; ret (r * (max - min) + min).

Definition Point : Type := (num * num * num)%type.

(** [case ShapeType.Sphere] *)
Definition Sphere_point (count i : nat) : Rand Point :=
  let t := idx i / idx count in
  let phi := Math_acos (int 1 - int 2 * t) in
  let theta := Math_PI * (int 1 + Math_sqrt (int 5)) * idx i in
  let r := int 10 in
  ret (r * Math_sin phi * Math_cos theta,
       r * Math_sin phi * Math_sin theta,
       r * Math_cos phi).

(** [case ShapeType.Sierpinski]: the chaos game, five moves halfway to a
    corner drawn at random. *)
Definition corners : list (Vector3 num) :=
  [ mkVector3 (int 10) (int 10) (int 10);
    mkVector3 (int (-10)) (int (-10)) (int 10);
    mkVector3 (int (-10)) (int 10) (int (-10));
    mkVector3 (int 10) (int (-10)) (int (-10)) ].

Fixpoint chaos_game (steps : nat) (p : Vector3 num) : Rand (Vector3 num) :=
  match steps with
  | O => ret p
  | S steps' =>
      r <- Math_random ;;
      match array_get corners (Math_floor (r * int 4)) with
      | Some corner => chaos_game steps' (lerp p corner (dec 5 10))
      | None => throw
      end
  end.

Definition Sierpinski_point (count i : nat) : Rand Point :=
  px <- random (int (-10)) (int 10) ;;
  py <- random (int (-10)) (int 10) ;;
  pz <- random (int (-10)) (int 10) ;;
  p <- chaos_game 5 (mkVector3 px py pz) ;;
  ret (vx p, vy p, vz p).

(** [case ShapeType.Mobius] *)
Definition Mobius_point (count i : nat) : Rand Point :=
  let t := idx i / idx count in
  let u := t * Math_PI * int 4 in
  v <- random (int (-1)) (int 1) ;;
  let r := int 8 + v * Math_cos (u / int 2) in
  ret (r * Math_cos u,
       r * Math_sin u,
       v * Math_sin (u / int 2) * int 4).

(** [case ShapeType.Heart] *)
Definition Heart_point (count i : nat) : Rand Point :=
  phi <- random (int 0) (Math_PI * int 2) ;;
  theta <- random (int 0) Math_PI ;;
  ret (int 10 * int 16 * Math_pow (Math_sin theta) (int 3) * Math_cos phi
         * dec 1 10,
       int 10 * (int 13 * Math_cos theta - int 5 * Math_cos (int 2 * theta)
                 - int 2 * Math_cos (int 3 * theta)
                 - Math_cos (int 4 * theta)) * dec 1 10,
       int 10 * int 16 * Math_pow (Math_sin theta) (int 3) * Math_sin phi
         * dec 1 10).

(** The inner loop of [case ShapeType.Lorenz]: [iter] Euler steps of
    size [0.003] with [sigma = 10], [rho = 28], [beta = 8/3]. *)
Definition Lorenz_step (s : Point) : Point :=
  let '(lx_, ly_, lz_) := s in
  let sigma := int 10 in
  let rho := int 28 in
  let beta := int 8 / int 3 in
  let dx := sigma * (ly_ - lx_) in
  let dy := lx_ * (rho - lz_) - ly_ in
  let dz := lx_ * ly_ - beta * lz_ in
  (lx_ + dx * dec 3 1000, ly_ + dy * dec 3 1000, lz_ + dz * dec 3 1000).

Fixpoint Lorenz_loop (iter : nat) (s : Point) : Point :=
  match iter with
  | O => s
  | S iter' => Lorenz_loop iter' (Lorenz_step s)
  end.

(** [case ShapeType.Lorenz].  In the branch [i % 100 === 0] the three
    draws go to [lx], [ly], [lz], which nothing reads afterwards; in the
    other branch [t_val], [px], [py], [pz] and the first values of [x]
    and [y] are computed and never read. *)
Definition Lorenz_point (count i : nat) : Rand Point :=
  if Nat.eqb (i mod 100) 0 then
    lx <- random (int (-10)) (int 10) ;;
    ly <- random (int (-10)) (int 10) ;;
    lz <- random (int 0) (int 20) ;;
    ret (int 0, int 0, int 0)
  else
    let angle := idx i * dec 1 10 in
    let r := idx (i mod 1000) / int 1000 * int 20 in
    let x := Math_sin angle * r in
    let y := Math_cos angle * r in
    let iter := (50 + i mod 2000)%nat in
    let '(lx_, ly_, lz_) := Lorenz_loop iter (int 1, int 1, int 1) in
    let x := lx_ in
    let y := ly_ in
    ret (x, y, lz_ - int 25).

(** [case ShapeType.Galaxy] *)
Definition Galaxy_point (count i : nat) : Rand Point :=
  let arms := 5%nat in
  let armAngle := idx (i mod arms) * (int 2 * Math_PI / idx arms) in
  dist <- random (int 0) (int 15) ;;
  let angle := dist * dec 5 10 + armAngle in
  randomness <- random (int (-1)) (int 1) ;;
  r <- random (int (-1)) (int 1) ;;
  ret (Math_cos angle * dist + randomness,
       Math_sin angle * dist + randomness,
       (r * dist) * dec 2 10).

(** [case ShapeType.DNA] *)
Definition DNA_point (count i : nat) : Rand Point :=
  let t := idx i / idx count in
  let turns := int 10 in
  let angle := t * Math_PI * int 2 * turns in
  let radius := int 5 in
  let height := int 30 in
  let strand := if Nat.eqb (i mod 2) 0 then int 1 else int (-1) in
  let x := Math_cos (angle + strand * Math_PI) * radius in
  let z := Math_sin (angle + strand * Math_PI) * radius in
  let y := (t - dec 5 10) * height in
  if Nat.eqb (i mod 10) 0 then
    r <- random (- radius) radius ;;
    ret (Math_cos angle * r, y, Math_sin angle * r)
  else ret (x, y, z).

(** [case ShapeType.Klein] *)
Definition Klein_point (count i : nat) : Rand Point :=
  let t := idx i / idx count in
  let u := t * Math_PI * int 2 in
  let v := (idx (i mod 100) / int 100) * Math_PI * int 2 in
  let r := int 4 * (int 1 - Math_cos u / int 2) in
  let '(x, y) :=
    if u <? Math_PI then
      (int 6 * Math_cos u * (int 1 + Math_sin u)
         + r * Math_cos u * Math_cos v,
       int 16 * Math_sin u + r * Math_sin u * Math_cos v)
    else
      (int 6 * Math_cos u * (int 1 + Math_sin u)
         + r * Math_cos (v + Math_PI),
       int 16 * Math_sin u) in
  let z := r * Math_sin v in
  ret (x * dec 3 10, y * dec 3 10, z * dec 3 10).

(** [case ShapeType.Trefoil]; [v] and [R] of the source are never read. *)
Definition Trefoil_point (count i : nat) : Rand Point :=
  let t := idx i / idx count in
  let u := t * Math_PI * int 4 in
  let kx := Math_sin u + int 2 * Math_sin (int 2 * u) in
  let ky := Math_cos u - int 2 * Math_cos (int 2 * u) in
  let kz := - Math_sin (int 3 * u) in
  rx <- random (dec (-5) 10) (dec 5 10) ;;
  ry <- random (dec (-5) 10) (dec 5 10) ;;
  rz <- random (dec (-5) 10) (dec 5 10) ;;
  ret (kx * int 4 + rx, ky * int 4 + ry, kz * int 4 + rz).

(** The inner loop of [case ShapeType.Rossler]: [steps] Euler steps of
    size [0.01] with [a = b = 0.2], [c = 5.7]. *)
Definition Rossler_step (s : Point) : Point :=
  let '(rx, ry, rz) := s in
  let a := dec 2 10 in
  let b := dec 2 10 in
  let c := dec 57 10 in
  let dx := - ry - rz in
  let dy := rx + a * ry in
  let dz := b + rz * (rx - c) in
  (rx + dx * dec 1 100, ry + dy * dec 1 100, rz + dz * dec 1 100).

Fixpoint Rossler_loop (steps : nat) (s : Point) : Point :=
  match steps with
  | O => s
  | S steps' => Rossler_loop steps' (Rossler_step s)
  end.

(** [case ShapeType.Rossler] *)
Definition Rossler_point (count i : nat) : Rand Point :=
  let steps := (100 + i mod 3000)%nat in
  let '(rx, ry, rz) := Rossler_loop steps (int 1, int 1, int 1) in
  ret (rx, ry, rz - int 10).

(** [case ShapeType.Clifford] *)
Definition Clifford_point (count i : nat) : Rand Point :=
  let t := idx i / idx count in
  let u := t * Math_PI * int 2 in
  let v := (idx (i mod 200) / int 200) * Math_PI * int 2 in
  let R := int 8 in
  let r := int 3 in
  ret ((R + r * Math_cos v) * Math_cos u,
       (R + r * Math_cos v) * Math_sin u,
       r * Math_sin v).

(** [case ShapeType.Hourglass] *)
Definition Hourglass_point (count i : nat) : Rand Point :=
  let t := idx i / idx count in
  let u := t * Math_PI * int 4 in
  let h := (idx (i mod 100) / int 100) * int 2 - int 1 in
  let r := Math_pow h (int 2) * int 10 + int 1 in
  ret (r * Math_cos u, h * int 15, r * Math_sin u).

(** [case ShapeType.Warp] *)
Definition Warp_point (count i : nat) : Rand Point :=
  let t := idx i / idx count in
  let depth := num_rem (t * int 50) (int 50) in
  let angle := idx i * dec 5 10 in
  let r := int 5 + Math_sin (depth * dec 5 10) * int 2 in
  ret (Math_cos angle * r, Math_sin angle * r, int 25 - depth).

(** [case ShapeType.Quantum] *)
Definition Quantum_point (count i : nat) : Rand Point :=
  u <- random (int 0) (int 1) ;;
  v <- random (int 0) (int 1) ;;
  let theta := int 2 * Math_PI * u in
  let phi := Math_acos (int 2 * v - int 1) in
  w <- random (int 0) (int 1) ;;
  let r := Math_cbrt w * int 10 in
  let orbital := Math_abs (Math_cos theta * Math_sin phi) * int 5 in
  ret ((r + orbital) * Math_sin phi * Math_cos theta,
       (r + orbital) * Math_sin phi * Math_sin theta,
       (r + orbital) * Math_cos phi).

(** [case ShapeType.Flower] *)
Definition Flower_point (count i : nat) : Rand Point :=
  let t := idx i / idx count in
  let u := t * Math_PI * int 20 in
  let v := idx (i mod 50) / int 50 in
  let r := int 5 + Math_cos (u * int 5) * int 5 in
  ret (r * Math_cos u * v * int 2,
       (Math_sin (u * int 5) * int 5) * (int 1 - v),
       r * Math_sin u * v * int 2).

(** [case ShapeType.BlackHole] *)
Definition BlackHole_point (count i : nat) : Rand Point :=
  let t := idx i / idx count in
  d <- random (int 0) (int 15) ;;
  let dist := int 3 + d in
  let angle := t * Math_PI * int 20 + (int 10 / dist) in
  let x := Math_cos angle * dist in
  let z := Math_sin angle * dist in
  r <- random (int (-1)) (int 1) ;;
  let y := (r * dec 5 10) / (dist * dec 5 10) in
  let y := if dist <? int 4 then y * int 2 else y in
  ret (x, y, z).

(** [case ShapeType.Lissajous] *)
Definition Lissajous_point (count i : nat) : Rand Point :=
  let t := idx i / idx count in
  let delta := Math_PI / int 2 in
  let angle := t * Math_PI * int 20 in
  ret (int 10 * Math_sin (int 3 * angle + delta),
       int 10 * Math_sin (int 2 * angle),
       int 10 * Math_sin (int 4 * angle)).

(** [case ShapeType.GravityWave] *)
Definition GravityWave_point (count i : nat) : Rand Point :=
  let t := idx i / idx count in
  let size := int 30 in
  x <- random (- size) size ;;
  z <- random (- size) size ;;
  let d := Math_sqrt (x * x + z * z) in
  let y := Math_sin (d * dec 5 10 - t * int 0) * int 5
           * Math_exp (- d * dec 5 100) in
  ret (x, y, z).

(** [case ShapeType.Hypercube] *)
Definition Hypercube_point (count i : nat) : Rand Point :=
  let size := int 10 in
  let inner := idx i <? idx count / int 2 in
  let pick (r : num) : num :=
    if inner then (if r >? int 0 then size / int 2 else - size / int 2)
    else (if r >? int 0 then size else - size) in
  rx <- random (int (-1)) (int 1) ;;
  ry <- random (int (-1)) (int 1) ;;
  rz <- random (int (-1)) (int 1) ;;
  e <- Math_random ;;
  if e >? dec 8 10 then
    x <- random (- size) size ;; ret (x, pick ry, pick rz)
  else ret (pick rx, pick ry, pick rz).

(** [case ShapeType.Penrose]; [width] of the source is never read. *)
Definition Penrose_point (count i : nat) : Rand Point :=
  let part := (i mod 3)%nat in
  pos <- random (int (-10)) (int 10) ;;
  let '(x, y, z) :=
    if Nat.eqb part 0 then
      ((if Math_abs pos >? int 10 then int 0 else pos), int (-10), int 0)
    else if Nat.eqb part 1 then
      (int 10 - (pos + int 10) / int 2,
       int (-10) + (pos + int 10) * Math_sqrt (int 3) / int 2,
       (pos + int 10) / int 2)
    else
      (int (-10) + (pos + int 10) / int 2,
       int (-10) + (pos + int 10) * Math_sqrt (int 3) / int 2,
       - (pos + int 10) / int 2) in
  ret (x * dec 8 10, y * dec 8 10, z * dec 8 10).

(** [default:] *)
Definition default_point (count i : nat) : Rand Point :=
  x <- random (int (-10)) (int 10) ;;
  y <- random (int (-10)) (int 10) ;;
  z <- random (int (-10)) (int 10) ;;
  ret (x, y, z).

(** The [switch] of the loop body. *)
Definition point (shape : option ShapeType) (count i : nat) : Rand Point :=
  match shape with
  | Some Sphere => Sphere_point count i
  | Some Sierpinski => Sierpinski_point count i
  | Some Mobius => Mobius_point count i
  | Some Heart => Heart_point count i
  | Some Lorenz => Lorenz_point count i
  | Some Galaxy => Galaxy_point count i
  | Some DNA => DNA_point count i
  | Some Klein => Klein_point count i
  | Some Trefoil => Trefoil_point count i
  | Some Rossler => Rossler_point count i
  | Some Clifford => Clifford_point count i
  | Some Hourglass => Hourglass_point count i
  | Some Warp => Warp_point count i
  | Some Quantum => Quantum_point count i
  | Some Flower => Flower_point count i
  | Some BlackHole => BlackHole_point count i
  | Some Lissajous => Lissajous_point count i
  | Some GravityWave => GravityWave_point count i
  | Some Hypercube => Hypercube_point count i
  | Some Penrose => Penrose_point count i
  | None => default_point count i
  end.

(** [for (let i = 0; i < count; i++)]: [n] iterations are left, the next
    index is [i]. *)
Fixpoint for_loop (shape : option ShapeType) (count n i : nat)
    (positions : list num) : Rand (list num) :=
  match n with
  | O => ret positions
  | S n' =>
      p <- point shape count i ;;
      let '(x, y, z) := p in
      let idx := (i * 3)%nat in
      let positions := store positions idx x in
      let positions := store positions (idx + 1) y in
      let positions := store positions (idx + 2) z in
      for_loop shape count n' (S i) positions
  end.

(** [generateParticles(shape, count)]: the buffer it returns, [None] when
    it throws. *)
Definition generateParticles (shape : string) (count : nat)
  : option (list num) :=
  match for_loop (switch_case shape) count count 0
                 (Float32Array (count * 3)) 0%nat with
  | Some (positions, _) => Some positions
  | None => None
  end.
End Generator.

(** ** The morph driver, [src/components/Scene.tsx] *)

Section MorphDriver.
Context {num : Type} {A : Arith num}.

(** [const PARTICLE_COUNT = 20000] in the source; the loop below and the
    buffers it works on are sized by it. *)
Variable PARTICLE_COUNT : nat.

Local Open Scope js_scope.

(** The two buffers of [Particles]: [positions], the array of the
    geometry's position attribute, which the loop changes in place, and
    [targetPositions]. *)
Record MorphState : Type := mkMorphState {
  positions : list num;
  targetPositions : list num
}.

Definition lerpFactor : num := dec 5 100.
Definition epsilon : num := dec 1 1000.

(** What one iteration of the loop leaves in [posArray[i]]. *)
Definition lerp_component (target pos : num) : num :=
  let diff := target - pos in
  if Math_abs diff >? epsilon then Math_fround (pos + diff * lerpFactor)
  else pos.

(** [for (let i = 0; i < PARTICLE_COUNT * 3; i++)]: [n] iterations are
    left, the next index is [i].  A read outside an array gives
    [undefined], the difference is then NaN and the test fails. *)
Fixpoint lerp_loop (n i : nat) (target posArray : list num)
    (needsUpdate : bool) : list num * bool :=
  match n with
  | O => (posArray, needsUpdate)
  | S n' =>
      match nth_error target i, nth_error posArray i with
      | Some t, Some p =>
          let diff := t - p in
          if Math_abs diff >? epsilon then
            lerp_loop n' (S i) target
                      (store posArray i (p + diff * lerpFactor)) true
          else lerp_loop n' (S i) target posArray needsUpdate
      | _, _ => lerp_loop n' (S i) target posArray needsUpdate
      end
  end.

(** One call of the [useFrame] callback: the new state and the flag
    [needsUpdate]. *)
Definition tick (st : MorphState) : MorphState * bool :=
  let '(posArray, needsUpdate) :=
    lerp_loop (PARTICLE_COUNT * 3) 0 (targetPositions st) (positions st)
              false in
  (mkMorphState posArray (targetPositions st), needsUpdate).

Definition tick_state (st : MorphState) : MorphState := fst (tick st).

Fixpoint ticks (n : nat) (st : MorphState) : MorphState :=
  match n with
  | O => st
  | S n' => ticks n' (tick_state st)
  end.

(** The effect on [currentShape]: [setTargetPositions(newTarget)]. *)
Definition retarget (newTarget : list num) (st : MorphState) : MorphState :=
  mkMorphState (positions st) newTarget.
End MorphDriver.

Arguments MorphState : clear implicits.

(** ** Exact arithmetic: the real numbers *)

Module RealArith.
Local Open Scope R_scope.

Definition R_lt (a b : R) : bool := if Rlt_dec a b then true else false.
Definition R_eq (a b : R) : bool := if Req_dec_T a b then true else false.

(** The largest integer not above [x]. *)
Definition R_floor (x : R) : R := IZR (Int_part x).

(** The quotient rounded towards zero, and the remainder [x % y], which
    has the sign of [x]. *)
Definition R_trunc (x : R) : R :=
  if Rle_dec 0 x then R_floor x else - R_floor (- x).
Definition R_rem (x y : R) : R := x - y * R_trunc (x / y).

Definition R_cbrt (x : R) : R :=
  if Rlt_dec 0 x then Rpower x (/ 3)
  else if Rlt_dec x 0 then - Rpower (- x) (/ 3)
  else 0.

(** [Math.pow(x, y)]: a power with an integer exponent when [y] is an
    integer, [exp (y * ln x)] otherwise. *)
Definition R_pow (x y : R) : R :=
  if Req_dec_T y (R_floor y) then powerRZ x (Int_part y) else Rpower x y.
End RealArith.

#[export] Instance R_Arith : Arith R := {
  num_of_Z := IZR;
  num_add := Rplus;
  num_sub := Rminus;
  num_mul := Rmult;
  num_div := Rdiv;
  num_neg := Ropp;
  Math_abs := Rabs;
  num_lt := RealArith.R_lt;
  num_eq := RealArith.R_eq;
  Math_fround := fun x => x
}.

#[export] Instance R_MathLib : MathLib R := {
  Math_PI := PI;
  Math_sin := sin;
  Math_cos := cos;
  Math_acos := acos;
  Math_sqrt := sqrt;
  Math_exp := exp;
  Math_cbrt := RealArith.R_cbrt;
  Math_pow := RealArith.R_pow;
  Math_floor := RealArith.R_floor;
  num_rem := RealArith.R_rem
}.

(** ** Exact arithmetic, binary32 in the typed arrays *)

(** The rounding of a real number to the nearest binary32 number, ties to
    even: precision 24, exponents from -126 (below, the spacing stays
    [2^-149]) to 127.  Overflow is not modelled: a number of magnitude
    [2^128] or more is rounded like those of the last binade. *)
Module Binary32.
Local Open Scope R_scope.

(** The search for the exponent [e] with [2^e <= a], downwards from [e],
    at most [fuel] steps. *)
Fixpoint binade (fuel : nat) (e : Z) (a : R) : Z :=
  match fuel with
  | O => e
  | S fuel' => if Rle_dec (powerRZ 2 e) a then e else binade fuel' (e - 1) a
  end.

Definition exponent (a : R) : Z := binade 253 127 a.

(** The nearest integer, the even one of two that are equally near. *)
Definition nearest_even (y : R) : Z :=
  let n := Int_part y in
  let f := y - IZR n in
  if Rlt_dec f (1 / 2) then n
  else if Rlt_dec (1 / 2) f then (n + 1)%Z
  else if Z.even n then n else (n + 1)%Z.

(** The distance between the binary32 numbers around [x]. *)
Definition spacing (x : R) : R := powerRZ 2 (exponent (Rabs x) - 23).

Definition R_fround (x : R) : R :=
  IZR (nearest_even (x / spacing x)) * spacing x.
End Binary32.

Definition S_Arith : Arith R := {|
  num_of_Z := IZR;
  num_add := Rplus;
  num_sub := Rminus;
  num_mul := Rmult;
  num_div := Rdiv;
  num_neg := Ropp;
  Math_abs := Rabs;
  num_lt := RealArith.R_lt;
  num_eq := RealArith.R_eq;
  Math_fround := Binary32.R_fround
|}.

(** ** Exact arithmetic with a non-finite element *)

(** A number is a real or is not finite; [NonFinite] stands for NaN and the
    two infinities.  An operation gives [NonFinite] where the real one is
    not defined, and on a [NonFinite] argument; a comparison with
    [NonFinite] is false. *)
Inductive xreal : Type :=
  | Finite (r : R)
  | NonFinite.

Module XArith.
Import RealArith.
Local Open Scope R_scope.

Definition lift1 (f : R -> R) (a : xreal) : xreal :=
  match a with Finite x => Finite (f x) | NonFinite => NonFinite end.

Definition lift2 (f : R -> R -> R) (a b : xreal) : xreal :=
  match a, b with
  | Finite x, Finite y => Finite (f x y)
  | _, _ => NonFinite
  end.

Definition X_div (a b : xreal) : xreal :=
  match a, b with
  | Finite x, Finite y => if Req_dec_T y 0 then NonFinite else Finite (x / y)
  | _, _ => NonFinite
  end.

Definition X_lt (a b : xreal) : bool :=
  match a, b with
  | Finite x, Finite y => R_lt x y
  | _, _ => false
  end.

Definition X_eq (a b : xreal) : bool :=
  match a, b with
  | Finite x, Finite y => R_eq x y
  | _, _ => false
  end.

Definition X_acos (a : xreal) : xreal :=
  match a with
  | Finite x => if Rle_dec (-1) x then
                  if Rle_dec x 1 then Finite (acos x) else NonFinite
                else NonFinite
  | NonFinite => NonFinite
  end.

Definition X_sqrt (a : xreal) : xreal :=
  match a with
  | Finite x => if Rle_dec 0 x then Finite (sqrt x) else NonFinite
  | NonFinite => NonFinite
  end.

(** [Math.pow(x, y)] is not finite for [x = 0] and a negative [y], and
    for a negative [x] and a [y] that is no integer. *)
Definition X_pow (a b : xreal) : xreal :=
  match a, b with
  | Finite x, Finite y =>
      if Req_dec_T y (R_floor y) then
        if Req_dec_T x 0 then
          if Rle_dec 0 y then Finite (R_pow x y) else NonFinite
        else Finite (R_pow x y)
      else if Rlt_dec 0 x then Finite (R_pow x y)
      else if Req_dec_T x 0 then
        if Rlt_dec 0 y then Finite 0 else NonFinite
      else NonFinite
  | _, _ => NonFinite
  end.

Definition X_rem (a b : xreal) : xreal :=
  match a, b with
  | Finite x, Finite y => if Req_dec_T y 0 then NonFinite
                          else Finite (R_rem x y)
  | _, _ => NonFinite
  end.

Definition is_finite (a : xreal) : Prop :=
  match a with Finite _ => True | NonFinite => False end.
End XArith.

#[export] Instance X_Arith : Arith xreal := {
  num_of_Z := fun z => Finite (IZR z);
  num_add := XArith.lift2 Rplus;
  num_sub := XArith.lift2 Rminus;
  num_mul := XArith.lift2 Rmult;
  num_div := XArith.X_div;
  num_neg := XArith.lift1 Ropp;
  Math_abs := XArith.lift1 Rabs;
  num_lt := XArith.X_lt;
  num_eq := XArith.X_eq;
  Math_fround := fun x => x
}.

#[export] Instance X_MathLib : MathLib xreal := {
  Math_PI := Finite PI;
  Math_sin := XArith.lift1 sin;
  Math_cos := XArith.lift1 cos;
  Math_acos := XArith.X_acos;
  Math_sqrt := XArith.X_sqrt;
  Math_exp := XArith.lift1 exp;
  Math_cbrt := XArith.lift1 RealArith.R_cbrt;
  Math_pow := XArith.X_pow;
  Math_floor := XArith.lift1 RealArith.R_floor;
  num_rem := XArith.X_rem
}.

(** ** Exact arithmetic on the rationals *)

#[export] Instance Q_Arith : Arith Q := {
  num_of_Z := inject_Z;
  num_add := fun a b => Qred (Qplus a b);
  num_sub := fun a b => Qred (Qminus a b);
  num_mul := fun a b => Qred (Qmult a b);
  num_div := fun a b => Qred (Qdiv a b);
  num_neg := Qopp;
  Math_abs := Qabs;
  num_lt := fun a b => negb (Qle_bool b a);
  num_eq := Qeq_bool;
  Math_fround := fun x => x
}.

(** ** binary64, and binary32 in the typed arrays *)

Module FloatArith.
(** The double nearest to an integer. *)
Definition F_of_Z (z : Z) : PrimFloat.float :=
  FloatOps.SF2Prim
    (SpecFloat.binary_normalize FloatOps.prec FloatOps.emax z 0 false).

(** [Math.fround]: the double rounded to the nearest binary32 number
    (precision 24, largest exponent 128), ties to even. *)
Definition F_fround (x : PrimFloat.float) : PrimFloat.float :=
  match FloatOps.Prim2SF x with
  | SpecFloat.S754_finite s m e =>
      FloatOps.SF2Prim (SpecFloat.binary_round 24 128 s m e)
  | _ => x
  end.
End FloatArith.

#[export] Instance F_Arith : Arith PrimFloat.float := {
  num_of_Z := FloatArith.F_of_Z;
  num_add := PrimFloat.add;
  num_sub := PrimFloat.sub;
  num_mul := PrimFloat.mul;
  num_div := PrimFloat.div;
  num_neg := PrimFloat.opp;
  Math_abs := PrimFloat.abs;
  num_lt := PrimFloat.ltb;
  num_eq := PrimFloat.eqb;
  Math_fround := FloatArith.F_fround
}.

(** ** The vocabulary of the statements *)

Section Vocabulary.
Context {num : Type} {A : Arith num}.
Local Open Scope js_scope.

(** The three entries of the point of index [j] in a buffer. *)
Definition point_at (buf : list num) (j : nat) (x y z : num) : Prop :=
  nth_error buf (j * 3)%nat = Some x /\
  nth_error buf (j * 3 + 1)%nat = Some y /\
  nth_error buf (j * 3 + 2)%nat = Some z.

(** What the buffer holds for the point of index [j]: the coordinates
    that some run of the [switch] body returned, rounded by the store. *)
Definition holds_point (buf : list num) (j : nat) (p : num * num * num) : Prop :=
  let '(x, y, z) := p in
  nth_error buf (j * 3)%nat = Some (Math_fround x) /\
  nth_error buf (j * 3 + 1)%nat = Some (Math_fround y) /\
  nth_error buf (j * 3 + 2)%nat = Some (Math_fround z).

(** The point the attractor branches compute from an index alone: the
    end of the Euler trajectory from [(1, 1, 1)], moved down the z axis. *)
Definition Lorenz_sample (i : nat) : num * num * num :=
  let '(x, y, z) := Lorenz_loop (50 + i mod 2000)%nat (int 1, int 1, int 1) in
  (x, y, z - int 25).

Definition Rossler_sample (i : nat) : num * num * num :=
  let '(x, y, z) := Rossler_loop (100 + i mod 3000)%nat (int 1, int 1, int 1) in
  (x, y, z - int 10).

(** The Lorenz system with parameters [sigma], [rho], [beta], and the
    Rossler system with parameters [a], [b], [c], as vector fields. *)
Definition Lorenz_system (sigma rho beta : num) (s : num * num * num)
  : num * num * num :=
  let '(x, y, z) := s in
  (sigma * (y - x), x * (rho - z) - y, x * y - beta * z).

Definition Rossler_system (a b c : num) (s : num * num * num)
  : num * num * num :=
  let '(x, y, z) := s in
  (- y - z, x + a * y, b + z * (x - c)).

(** One step of the explicit Euler method with time step [dt]. *)
Definition euler_step (field : num * num * num -> num * num * num)
    (dt : num) (s : num * num * num) : num * num * num :=
  let '(x, y, z) := s in
  let '(dx, dy, dz) := field s in
  (x + dx * dt, y + dy * dt, z + dz * dt).

Fixpoint euler (field : num * num * num -> num * num * num) (dt : num)
    (steps : nat) (s : num * num * num) : num * num * num :=
  match steps with
  | O => s
  | S steps' => euler field dt steps' (euler_step field dt s)
  end.

(** The trajectory samples in the words of the specification: fixed seed
    [(1, 1, 1)], classical parameters, a number of steps read off the
    index. *)
Definition Lorenz_trajectory_sample (i : nat) : num * num * num :=
  let '(x, y, z) :=
    euler (Lorenz_system (int 10) (int 28) (int 8 / int 3)) (dec 3 1000)
          (50 + i mod 2000)%nat (int 1, int 1, int 1) in
  (x, y, z - int 25).

Definition Rossler_trajectory_sample (i : nat) : num * num * num :=
  let '(x, y, z) :=
    euler (Rossler_system (dec 2 10) (dec 2 10) (dec 57 10)) (dec 1 100)
          (100 + i mod 3000)%nat (int 1, int 1, int 1) in
  (x, y, z - int 10).

(** The loop as a function on the two lists: where either array has no
    element the position is kept. *)
Fixpoint lerp_all (target pos : list num) : list num :=
  match target, pos with
  | t :: target', p :: pos' => lerp_component t p :: lerp_all target' pos'
  | _, _ => pos
  end.

Definition entry_after (target pos : list num) (m : nat) : option num :=
  match nth_error target m, nth_error pos m with
  | Some t, Some p => Some (lerp_component t p)
  | _, _ => nth_error pos m
  end.

(** The sum over all components of the absolute difference between the
    target and the current buffer. *)
Fixpoint total_distance (target pos : list num) : num :=
  match target, pos with
  | t :: target', p :: pos' => Math_abs (t - p) + total_distance target' pos'
  | _, _ => int 0
  end.

(** The test of the loop at index [m] succeeds. *)
Definition moves (target pos : list num) (m : nat) : Prop :=
  exists t p,
    nth_error target m = Some t /\ nth_error pos m = Some p /\
    (Math_abs (t - p) >? epsilon)%js = true.

(** [n] applications of a function. *)
Fixpoint repeat_fn {T : Type} (f : T -> T) (n : nat) (x : T) : T :=
  match n with
  | O => x
  | S n' => repeat_fn f n' (f x)
  end.
End Vocabulary.

Section FiniteVocabulary.
Local Open Scope R_scope.

(** The contract of [Math.random]: a number in [[0, 1)]. *)
Definition unit_draws (rng : nat -> xreal) : Prop :=
  forall k, exists r, rng k = Finite r /\ 0 <= r < 1.

(** A finite number in [[-10, 10]]. *)
Definition in_cube (v : xreal) : Prop :=
  exists r, v = Finite r /\ -10 <= r <= 10.

(** The run of the [switch] body for [shape], index [i] and [k] draws made
    returns, and returns three finite coordinates. *)
Definition finite_point (rng : nat -> xreal) (shape : ShapeType)
    (count i k : nat) : Prop :=
  exists x y z k',
    point rng (Some shape) count i k
    = Some ((Finite x, Finite y, Finite z), k').

(** The positive z axis. *)
Definition on_axis (s : R * R * R) : Prop :=
  fst (fst s) = 0 /\ snd (fst s) = 0 /\ 0 < snd s.

(** The first two coordinates of the Clifford point of index 400 among
    1000, before the store. *)
Definition x400 : R := 11 * - ((1 + sqrt 5) / 4).
Definition y400 : R := 11 * sin (PI / 5).

(** All components of magnitude at most 64. *)
Definition bounded64 (l : list R) : Prop := Forall (fun v => Rabs v <= 64) l.

(** All components within epsilon of their targets. *)
Definition all_within (target pos : list R) : Prop :=
  Forall2 (fun t p => Rabs (t - p) <= 1 / 1000) target pos.
End FiniteVocabulary.

Section FloatVocabulary.
(** Neither NaN nor an infinity. *)
Definition F_is_finite (v : PrimFloat.float) : bool := PrimFloat.is_finite v.

(** The three stores of a point leave finite numbers in the buffer. *)
Definition stored_finite (p : PrimFloat.float * PrimFloat.float * PrimFloat.float)
  : bool :=
  let '(x, y, z) := p in
  F_is_finite (Math_fround x) && F_is_finite (Math_fround y)
  && F_is_finite (Math_fround z).

(** [ok] holds of a state and of the [n] states that follow it. *)
Fixpoint orbit_check {T : Type} (step : T -> T) (ok : T -> bool) (n : nat)
    (s : T) : bool :=
  ok s && match n with
          | O => true
          | S n' => orbit_check step ok n' (step s)
          end.

(** The stores of an attractor point: the state of the inner loop with
    its z moved by 25 (Lorenz) or 10 (Rossler). *)
Definition Lorenz_ok (s : PrimFloat.float * PrimFloat.float * PrimFloat.float)
  : bool :=
  let '(x, y, z) := s in stored_finite (x, y, (z - int 25)%js).

Definition Rossler_ok (s : PrimFloat.float * PrimFloat.float * PrimFloat.float)
  : bool :=
  let '(x, y, z) := s in stored_finite (x, y, (z - int 10)%js).

(** In binary64 with a binary32 buffer, the component 4096 with target
    4096 + 3/2048 (both binary32 numbers, 0.00146484375 apart) is sent to
    itself: the step 0.0000732421875 is less than half the spacing of
    binary32 numbers at 4096. *)
Definition stalled_state : MorphState PrimFloat.float :=
  mkMorphState [int 4096; int 0; int 0]
               [(int 4096 + int 3 / int 2048)%js; int 0; int 0].
End FloatVocabulary.

(** * Properties *)

Unset Implicit Arguments.

(** ** Typed arrays *)

Section TypedArrayFacts.
Context {num : Type} {A : Arith num}.

Lemma update_length (arr : list num) (i : nat) (v : num) :
  length (update arr i v) = length arr.
Proof.
  revert i; induction arr as [|a rest IH]; intros [|i]; simpl; auto.
Qed.

Lemma update_same (arr : list num) (i : nat) (v : num) :
  i < length arr -> nth_error (update arr i v) i = Some v.
Proof.
  revert i; induction arr as [|a rest IH]; intros [|i] H; simpl in *;
    try lia; auto.
  apply IH; lia.
Qed.

Lemma update_other (arr : list num) (i j : nat) (v : num) :
  i <> j -> nth_error (update arr i v) j = nth_error arr j.
Proof.
  revert i j; induction arr as [|a rest IH]; intros [|i] [|j] H; simpl;
    auto; try congruence.
Qed.

Lemma Float32Array_length (n : nat) : length (Float32Array n) = n.
Proof. apply repeat_length. Qed.

Lemma store_length (arr : list num) (i : nat) (v : num) :
  length (store arr i v) = length arr.
Proof. apply update_length. Qed.
End TypedArrayFacts.

(** ** The loop of the generator *)

Section LoopFacts.
Context {num : Type} {A : Arith num} {M : MathLib num}.
Variable rng : nat -> num.
Variable shape : option ShapeType.
Variable count : nat.


Lemma for_loop_spec (n : nat) :
  forall (i : nat) (pos : list num) (k : nat) (pos' : list num) (k' : nat),
    for_loop rng shape count n i pos k = Some (pos', k') ->
    length pos' = length pos /\
    (forall m, m < i * 3 \/ (i + n) * 3 <= m ->
               nth_error pos' m = nth_error pos m) /\
    ((i + n) * 3 <= length pos ->
     forall j, i <= j < i + n ->
       exists kj p kj', point rng shape count j kj = Some (p, kj') /\
                        holds_point pos' j p).
Proof.
  induction n as [|n IH]; intros i pos k pos' k' H; simpl in H.
  - inversion H; subst. repeat split; auto. intros _ j Hj; lia.
  - unfold bind in H.
    destruct (point rng shape count i k) as [[[[x y] z] k1]|] eqn:Hp;
      [|discriminate].
    apply IH in H. destruct H as (Hlen & Hout & Hin).
    rewrite !store_length in Hlen.
    split; [exact Hlen|]. split.
    + intros m Hm. rewrite Hout by lia.
      unfold store. rewrite !update_other by lia. reflexivity.
    + intros Hfit j Hj.
      destruct (Nat.eq_dec j i) as [->|Hne].
      * exists k, (x, y, z), k1. split; [exact Hp|].
        unfold holds_point.
        rewrite !Hout by lia. unfold store.
        repeat split.
        -- rewrite !update_other by lia. apply update_same. lia.
        -- rewrite update_other by lia. apply update_same.
           rewrite update_length. lia.
        -- apply update_same. rewrite !update_length. lia.
      * apply Hin; [rewrite !store_length; lia | lia].
Qed.

Lemma for_loop_total (n : nat) :
  (forall i k, i < count -> exists r, point rng shape count i k = Some r) ->
  forall (i : nat) (pos : list num) (k : nat),
    i + n <= count ->
    exists r, for_loop rng shape count n i pos k = Some r.
Proof.
  intros Htot. induction n as [|n IH]; intros i pos k Hle; simpl.
  - eexists; reflexivity.
  - unfold bind. destruct (Htot i k) as [[[[x y] z] k1] Hp]; [lia|].
    rewrite Hp. apply IH. lia.
Qed.
End LoopFacts.

Section GeneratorFacts.
Context {num : Type} {A : Arith num} {M : MathLib num}.
Variable rng : nat -> num.

(** The buffer [generateParticles] returns has [3 * count] entries, and
    the three entries of each point are the rounded results of one run of
    the [switch] body for its index. *)
Lemma generateParticles_spec (shape : string) (count : nat)
    (buf : list num) :
  generateParticles rng shape count = Some buf ->
  length buf = count * 3 /\
  forall j, j < count ->
    exists kj p kj',
      point rng (switch_case shape) count j kj = Some (p, kj') /\
      holds_point buf j p.
Proof.
  unfold generateParticles. intros H.
  destruct (for_loop rng (switch_case shape) count count 0
              (Float32Array (count * 3)) 0) as [[pos k]|] eqn:Hl;
    [|discriminate].
  inversion H; subst; clear H.
  apply for_loop_spec in Hl. destruct Hl as (Hlen & _ & Hin).
  rewrite Float32Array_length in *.
  split; [exact Hlen|]. intros j Hj. apply Hin; simpl; lia.
Qed.

(** When no run of the [switch] body throws, neither does
    [generateParticles]. *)
Lemma generateParticles_total (shape : string) (count : nat) :
  (forall i k, i < count ->
     exists r, point rng (switch_case shape) count i k = Some r) ->
  exists buf, generateParticles rng shape count = Some buf.
Proof.
  intros Htot. unfold generateParticles.
  destruct (@for_loop_total _ _ _ rng (switch_case shape) count count Htot 0
              (Float32Array (count * 3)) 0) as [[pos k] Hl]; [lia|].
  rewrite Hl. eexists; reflexivity.
Qed.

Lemma switch_case_value (s : ShapeType) :
  switch_case (ShapeType_value s) = Some s.
Proof. destruct s; reflexivity. Qed.
End GeneratorFacts.

(** ** The branches of the [switch] *)

Section BranchFacts.
Context {num : Type} {A : Arith num} {M : MathLib num}.
Variable rng : nat -> num.

Local Open Scope js_scope.


Lemma Lorenz_point_reset (count i k : nat) :
  i mod 100 = 0%nat ->
  Lorenz_point rng count i k = Some ((int 0, int 0, int 0), (k + 3)%nat).
Proof.
  intros H. unfold Lorenz_point. rewrite H. simpl.
  unfold bind, random, bind, Math_random, ret. simpl.
  repeat f_equal. lia.
Qed.

Lemma Lorenz_point_orbit (count i k : nat) :
  i mod 100 <> 0%nat ->
  Lorenz_point rng count i k = Some (Lorenz_sample i, k).
Proof.
  intros H. unfold Lorenz_point, Lorenz_sample.
  destruct (Nat.eqb_spec (i mod 100) 0) as [E|_]; [contradiction|].
  destruct (Lorenz_loop (50 + i mod 2000) (int 1, int 1, int 1))
    as [[x y] z].
  reflexivity.
Qed.

Lemma Rossler_point_orbit (count i k : nat) :
  Rossler_point count i k = Some (Rossler_sample i, k).
Proof.
  unfold Rossler_point, Rossler_sample.
  destruct (Rossler_loop (100 + i mod 3000) (int 1, int 1, int 1))
    as [[x y] z].
  reflexivity.
Qed.

(** Only the chaos game reads an array at a computed index; no other
    branch can throw. *)
Lemma point_total (shape : option ShapeType) (count i k : nat) :
  shape <> Some Sierpinski ->
  exists r, point rng shape count i k = Some r.
Proof.
  intros Hs. destruct shape as [[]|]; try congruence;
    cbv beta iota delta [point];
    try rewrite Rossler_point_orbit;
    try (destruct (Nat.eq_dec (i mod 100) 0) as [E|E];
         [rewrite Lorenz_point_reset by assumption
         |rewrite Lorenz_point_orbit by assumption]);
    try (eexists; reflexivity);
    cbv beta iota zeta delta
      [Sphere_point Mobius_point Heart_point Galaxy_point DNA_point
       Klein_point Trefoil_point Clifford_point Hourglass_point Warp_point
       Quantum_point Flower_point BlackHole_point Lissajous_point
       GravityWave_point Hypercube_point Penrose_point default_point
       bind random Math_random ret];
    repeat match goal with
           | |- context [if ?b then _ else _] => destruct b
           end;
    eexists; reflexivity.
Qed.
End BranchFacts.

(** ** The classical systems the attractor branches integrate *)

Section Attractors.
Context {num : Type} {A : Arith num}.
Local Open Scope js_scope.

Lemma Lorenz_loop_euler (n : nat) (s : num * num * num) :
  Lorenz_loop n s
  = euler (Lorenz_system (int 10) (int 28) (int 8 / int 3)) (dec 3 1000)
          n s.
Proof.
  revert s; induction n as [|n IH]; intros s; simpl; [reflexivity|].
  rewrite IH. destruct s as [[x y] z]. reflexivity.
Qed.

Lemma Rossler_loop_euler (n : nat) (s : num * num * num) :
  Rossler_loop n s
  = euler (Rossler_system (dec 2 10) (dec 2 10) (dec 57 10)) (dec 1 100)
          n s.
Proof.
  revert s; induction n as [|n IH]; intros s; simpl; [reflexivity|].
  rewrite IH. destruct s as [[x y] z]. reflexivity.
Qed.

Lemma Lorenz_sample_classical (i : nat) :
  Lorenz_sample i = Lorenz_trajectory_sample i.
Proof.
  unfold Lorenz_sample, Lorenz_trajectory_sample.
  rewrite Lorenz_loop_euler. reflexivity.
Qed.

Lemma Rossler_sample_classical (i : nat) :
  Rossler_sample i = Rossler_trajectory_sample i.
Proof.
  unfold Rossler_sample, Rossler_trajectory_sample.
  rewrite Rossler_loop_euler. reflexivity.
Qed.
End Attractors.

(** ** Claims about the generator that hold in every arithmetic *)

Section GenericClaims.
Context {num : Type} {A : Arith num} {M : MathLib num}.

Lemma for_loop_ext (rng1 rng2 : nat -> num) (shape : option ShapeType)
    (count n : nat) :
  (forall i k, point rng1 shape count i k = point rng2 shape count i k) ->
  forall i pos k,
    for_loop rng1 shape count n i pos k = for_loop rng2 shape count n i pos k.
Proof.
  intros Hp. induction n as [|n IH]; intros i pos k; simpl; [reflexivity|].
  unfold bind. rewrite Hp.
  destruct (point rng2 shape count i k) as [[[[x y] z] k1]|]; auto.
Qed.

Lemma generateParticles_ext (rng1 rng2 : nat -> num) (s : ShapeType)
    (count : nat) :
  (forall i k, point rng1 (Some s) count i k = point rng2 (Some s) count i k) ->
  s <> Sierpinski ->
  exists buf,
    generateParticles rng1 (ShapeType_value s) count = Some buf /\
    generateParticles rng2 (ShapeType_value s) count = Some buf.
Proof.
  intros Hp Hs.
  destruct (@generateParticles_total _ _ _ rng1 (ShapeType_value s) count)
    as [buf Hbuf].
  { intros i k _. rewrite switch_case_value. apply point_total. congruence. }
  exists buf. split; [exact Hbuf|].
  rewrite <- Hbuf. unfold generateParticles.
  rewrite switch_case_value.
  rewrite (for_loop_ext rng1 rng2 (Some s) count count Hp). reflexivity.
Qed.

(** C2, as amended: for Sphere, Klein, Clifford and Lissajous and every
    count, [generateParticles] returns the same buffer whatever
    [Math.random] returns: these four branches make no draw. *)
Theorem closed_form_shapes_deterministic (rng1 rng2 : nat -> num)
    (count : nat) :
  (exists buf,
      generateParticles rng1 (ShapeType_value Sphere) count = Some buf /\
      generateParticles rng2 (ShapeType_value Sphere) count = Some buf) /\
  (exists buf,
      generateParticles rng1 (ShapeType_value Klein) count = Some buf /\
      generateParticles rng2 (ShapeType_value Klein) count = Some buf) /\
  (exists buf,
      generateParticles rng1 (ShapeType_value Clifford) count = Some buf /\
      generateParticles rng2 (ShapeType_value Clifford) count = Some buf) /\
  (exists buf,
      generateParticles rng1 (ShapeType_value Lissajous) count = Some buf /\
      generateParticles rng2 (ShapeType_value Lissajous) count = Some buf).
Proof.
  repeat split; apply generateParticles_ext;
    try discriminate; intros i k; reflexivity.
Qed.

(** C9, as amended: the Rossler branch for every index, and the Lorenz
    branch for every index that is no multiple of 100, store the point
    that the index alone determines: the end of the explicit Euler
    trajectory of the classical system (Lorenz: sigma = 10, rho = 28,
    beta = 8/3, step 0.003, 50 + i mod 2000 steps, z moved by 25;
    Rossler: a = b = 0.2, c = 5.7, step 0.01, 100 + i mod 3000 steps,
    z moved by 10) from the seed (1, 1, 1).  Neither the count, nor
    [Math.random], nor another point enters. *)
Theorem attractor_points_from_index (rng : nat -> num) (count : nat) :
  (exists buf,
      generateParticles rng (ShapeType_value Rossler) count = Some buf /\
      forall i, i < count ->
                holds_point buf i (Rossler_trajectory_sample i)) /\
  (exists buf,
      generateParticles rng (ShapeType_value Lorenz) count = Some buf /\
      forall i, i < count -> i mod 100 <> 0 ->
                holds_point buf i (Lorenz_trajectory_sample i)).
Proof.
  split.
  - destruct (@generateParticles_total _ _ _ rng (ShapeType_value Rossler)
                count) as [buf Hbuf].
    { intros i k _. apply point_total. discriminate. }
    exists buf. split; [exact Hbuf|]. intros i Hi.
    apply generateParticles_spec in Hbuf. destruct Hbuf as [_ Hpts].
    destruct (Hpts i Hi) as (kj & p & kj' & Hp & Hh).
    simpl in Hp. rewrite Rossler_point_orbit in Hp.
    inversion Hp; subst. rewrite <- Rossler_sample_classical. exact Hh.
  - destruct (@generateParticles_total _ _ _ rng (ShapeType_value Lorenz)
                count) as [buf Hbuf].
    { intros i k _. apply point_total. discriminate. }
    exists buf. split; [exact Hbuf|]. intros i Hi Hmod.
    apply generateParticles_spec in Hbuf. destruct Hbuf as [_ Hpts].
    destruct (Hpts i Hi) as (kj & p & kj' & Hp & Hh).
    simpl in Hp. rewrite Lorenz_point_orbit in Hp by assumption.
    inversion Hp; subst. rewrite <- Lorenz_sample_classical. exact Hh.
Qed.

(** C10: in every arithmetic whose store keeps zero, and for every
    count, [generateParticles] on Lorenz returns a buffer in which each
    point whose index is a multiple of 100 (index 0 among them) has the
    three coordinates 0: the values drawn for [lx], [ly], [lz] are never
    copied to [x], [y], [z]. *)
Theorem Lorenz_reset_points_at_origin (rng : nat -> num) (count : nat) :
  0 < count ->
  Math_fround (int 0) = int 0 ->
  exists buf,
    generateParticles rng (ShapeType_value Lorenz) count = Some buf /\
    forall i, i < count -> i mod 100 = 0 ->
      nth_error buf (i * 3) = Some (int 0) /\
      nth_error buf (i * 3 + 1) = Some (int 0) /\
      nth_error buf (i * 3 + 2) = Some (int 0).
Proof.
  intros _ Hzero.
  destruct (@generateParticles_total _ _ _ rng (ShapeType_value Lorenz)
              count) as [buf Hbuf].
  { intros i k _. apply point_total. discriminate. }
  exists buf. split; [exact Hbuf|]. intros i Hi Hmod.
  apply generateParticles_spec in Hbuf. destruct Hbuf as [_ Hpts].
  destruct (Hpts i Hi) as (kj & p & kj' & Hp & Hh).
  simpl in Hp. rewrite Lorenz_point_reset in Hp by assumption.
  inversion Hp; subst. unfold holds_point in Hh.
  rewrite Hzero in Hh. exact Hh.
Qed.
End GenericClaims.

(** ** The loop of the morph driver *)

Section MorphFacts.
Context {num : Type} {A : Arith num}.
Variable PARTICLE_COUNT : nat.


Lemma lerp_all_nth (target pos : list num) (m : nat) :
  nth_error (lerp_all target pos) m = entry_after target pos m.
Proof.
  unfold entry_after.
  revert pos m; induction target as [|t target IH]; intros [|p pos] [|m];
    simpl; auto.
  destruct (nth_error _ _); reflexivity.
Qed.

Lemma lerp_all_length (target pos : list num) :
  length (lerp_all target pos) = length pos.
Proof.
  revert pos; induction target as [|t target IH]; intros [|p pos]; simpl;
    auto.
Qed.

Lemma lerp_loop_nth (n : nat) :
  forall (i : nat) (target pos : list num) (upd : bool) (m : nat),
    nth_error (fst (lerp_loop n i target pos upd)) m
    = if (i <=? m) && (m <? i + n) then entry_after target pos m
      else nth_error pos m.
Proof.
  induction n as [|n IH]; intros i target pos upd m; simpl.
  - destruct (i <=? m) eqn:E1; simpl; auto.
    destruct (m <? i + 0) eqn:E2; auto.
    apply Nat.leb_le in E1. apply Nat.ltb_lt in E2. lia.
  - assert (Hcase :
      forall pos1 upd1,
        (forall q, q <> i -> nth_error pos1 q = nth_error pos q) ->
        nth_error pos1 i = entry_after target pos i ->
        nth_error (fst (lerp_loop n (S i) target pos1 upd1)) m
        = if (i <=? m) && (m <? i + S n) then entry_after target pos m
          else nth_error pos m).
    { intros pos1 upd1 Hoth Hsame. rewrite IH.
      destruct (Nat.eq_dec m i) as [->|Hne].
      - replace (S i <=? i) with false by (symmetry; apply Nat.leb_gt; lia).
        replace (i <=? i) with true by (symmetry; apply Nat.leb_le; lia).
        replace (i <? i + S n) with true by (symmetry; apply Nat.ltb_lt; lia).
        simpl. exact Hsame.
      - replace (m <? S i + n) with (m <? i + S n)
          by (f_equal; lia).
        destruct (S i <=? m) eqn:E1.
        + apply Nat.leb_le in E1.
          replace (i <=? m) with true by (symmetry; apply Nat.leb_le; lia).
          simpl. destruct (m <? i + S n); [|apply Hoth; lia].
          unfold entry_after. rewrite (Hoth m) by lia. reflexivity.
        + apply Nat.leb_gt in E1.
          replace (i <=? m) with false by (symmetry; apply Nat.leb_gt; lia).
          simpl. apply Hoth; lia. }
    destruct (nth_error target i) as [t|] eqn:Ht;
      [destruct (nth_error pos i) as [p|] eqn:Hp|].
    + destruct (Math_abs (t - p) >? epsilon)%js eqn:Htest.
      * apply Hcase.
        -- intros q Hq. unfold store. apply update_other. congruence.
        -- unfold entry_after, lerp_component. rewrite Ht, Hp, Htest.
           unfold store. apply update_same.
           apply nth_error_Some. congruence.
      * apply Hcase; auto.
        unfold entry_after, lerp_component. rewrite Ht, Hp, Htest. auto.
    + apply Hcase; auto. unfold entry_after. rewrite Ht, Hp. auto.
    + apply Hcase; auto. unfold entry_after. rewrite Ht. auto.
Qed.

Lemma lerp_loop_length (n : nat) :
  forall (i : nat) (target pos : list num) (upd : bool),
    length (fst (lerp_loop n i target pos upd)) = length pos.
Proof.
  induction n as [|n IH]; intros i target pos upd; simpl; auto.
  destruct (nth_error target i) as [t|]; [|apply IH].
  destruct (nth_error pos i) as [p|]; [|apply IH].
  destruct (Math_abs (t - p) >? epsilon)%js; rewrite IH;
    [apply store_length | reflexivity].
Qed.

Lemma tick_state_positions (st : MorphState num) :
  positions (tick_state PARTICLE_COUNT st)
  = fst (lerp_loop (PARTICLE_COUNT * 3) 0 (targetPositions st)
                   (positions st) false).
Proof.
  unfold tick_state, tick.
  destruct (lerp_loop _ _ _ _ _); reflexivity.
Qed.

Lemma tick_state_target (st : MorphState num) :
  targetPositions (tick_state PARTICLE_COUNT st) = targetPositions st.
Proof.
  unfold tick_state, tick.
  destruct (lerp_loop _ _ _ _ _); reflexivity.
Qed.

(** The entry of every index after one tick. *)
Lemma tick_state_nth (st : MorphState num) (m : nat) :
  nth_error (positions (tick_state PARTICLE_COUNT st)) m
  = if m <? PARTICLE_COUNT * 3
    then entry_after (targetPositions st) (positions st) m
    else nth_error (positions st) m.
Proof.
  rewrite tick_state_positions, lerp_loop_nth. reflexivity.
Qed.

(** When the loop bound covers the position buffer, as it does in the
    program, a tick is [lerp_all]. *)
Lemma tick_state_lerp_all (st : MorphState num) :
  length (positions st) <= PARTICLE_COUNT * 3 ->
  tick_state PARTICLE_COUNT st
  = mkMorphState (lerp_all (targetPositions st) (positions st))
                 (targetPositions st).
Proof.
  intros Hlen.
  assert (Hp : positions (tick_state PARTICLE_COUNT st)
               = lerp_all (targetPositions st) (positions st)).
  { apply nth_error_ext. intros m.
    rewrite tick_state_nth, lerp_all_nth.
    destruct (m <? PARTICLE_COUNT * 3) eqn:E; [reflexivity|].
    apply Nat.ltb_ge in E. unfold entry_after.
    assert (Hnone : nth_error (positions st) m = None)
      by (apply nth_error_None; lia).
    rewrite Hnone.
    destruct (nth_error (targetPositions st) m); reflexivity. }
  pose proof (tick_state_target st) as Ht.
  destruct (tick_state PARTICLE_COUNT st) as [ps ts]; simpl in *.
  congruence.
Qed.

Lemma repeat_lerp_all_cons (t : num) (target : list num) (n : nat) :
  forall (p : num) (pos : list num),
    repeat_fn (lerp_all (t :: target)) n (p :: pos)
    = repeat_fn (lerp_component t) n p
      :: repeat_fn (lerp_all target) n pos.
Proof.
  induction n as [|n IH]; intros p pos; simpl; [reflexivity|apply IH].
Qed.

Lemma repeat_lerp_all_nil (target : list num) (n : nat) :
  repeat_fn (lerp_all target) n [] = [].
Proof.
  induction n as [|n IH]; simpl; [reflexivity|].
  destruct target; exact IH.
Qed.

Lemma ticks_lerp_all (n : nat) :
  forall st : MorphState num,
    length (positions st) <= PARTICLE_COUNT * 3 ->
    ticks PARTICLE_COUNT n st
    = mkMorphState
        (repeat_fn (lerp_all (targetPositions st)) n (positions st))
        (targetPositions st).
Proof.
  induction n as [|n IH]; intros st Hlen; simpl.
  - destruct st; reflexivity.
  - rewrite tick_state_lerp_all by exact Hlen.
    rewrite IH; simpl; [reflexivity|].
    rewrite lerp_all_length. exact Hlen.
Qed.

(** C7: one tick leaves the target buffer as it is and changes no
    length; a component of the current buffer whose absolute difference
    from its target does not exceed epsilon = 0.001 keeps its value (it
    is not set to the target); a component is changed only where the
    difference exceeds epsilon, and then to the rounded value of
    [p + (t - p) * 0.05]. *)
Theorem tick_changes_only_far_components (st : MorphState num) :
  targetPositions (tick_state PARTICLE_COUNT st) = targetPositions st /\
  length (positions (tick_state PARTICLE_COUNT st)) = length (positions st) /\
  (forall i t p,
      nth_error (targetPositions st) i = Some t ->
      nth_error (positions st) i = Some p ->
      (Math_abs (t - p) >? epsilon)%js = false ->
      nth_error (positions (tick_state PARTICLE_COUNT st)) i = Some p) /\
  (forall i,
      nth_error (positions (tick_state PARTICLE_COUNT st)) i
      = nth_error (positions st) i \/
      exists t p,
        nth_error (targetPositions st) i = Some t /\
        nth_error (positions st) i = Some p /\
        (Math_abs (t - p) >? epsilon)%js = true /\
        nth_error (positions (tick_state PARTICLE_COUNT st)) i
        = Some (Math_fround (p + (t - p) * lerpFactor)%js)).
Proof.
  split; [apply tick_state_target|].
  split; [rewrite tick_state_positions; apply lerp_loop_length|].
  split.
  - intros i t p Ht Hp Htest. rewrite tick_state_nth.
    unfold entry_after, lerp_component. rewrite Ht, Hp, Htest.
    destruct (i <? PARTICLE_COUNT * 3); reflexivity.
  - intros i. rewrite tick_state_nth.
    destruct (i <? PARTICLE_COUNT * 3); [|left; reflexivity].
    unfold entry_after, lerp_component.
    destruct (nth_error (targetPositions st) i) as [t|]; [|left; reflexivity].
    destruct (nth_error (positions st) i) as [p|]; [|left; reflexivity].
    destruct (Math_abs (t - p) >? epsilon)%js eqn:Htest; [|left; reflexivity].
    right. exists t, p. auto.
Qed.
End MorphFacts.

(** ** The flag of the morph driver and the throw of the generator *)

Section FlagFacts.
Context {num : Type} {A : Arith num}.
Variable PARTICLE_COUNT : nat.

Lemma lerp_loop_flag (n : nat) :
  forall (i : nat) (target pos : list num) (upd : bool),
    snd (lerp_loop n i target pos upd) = true <->
    upd = true \/ exists m, i <= m < i + n /\ moves target pos m.
Proof.
  induction n as [|n IH]; intros i target pos upd; simpl.
  - split; [auto|]. intros [H|(m & Hm & _)]; [exact H|lia].
  - assert (Hskip :
      ~ moves target pos i ->
      (upd = true \/ (exists m, S i <= m < S i + n /\ moves target pos m)) <->
      (upd = true \/ (exists m, i <= m < i + S n /\ moves target pos m))).
    { intros Hno. split; intros [H|(m & Hm & Hmv)]; auto; right; exists m.
      - split; [lia|exact Hmv].
      - split; [|exact Hmv].
        destruct (Nat.eq_dec m i) as [->|Hne]; [contradiction|lia]. }
    destruct (nth_error target i) as [t|] eqn:Ht;
      [destruct (nth_error pos i) as [p|] eqn:Hp|].
    + destruct (Math_abs (t - p) >? epsilon)%js eqn:Htest.
      * rewrite IH. split; intros _.
        -- right. exists i. split; [lia|]. exists t, p. auto.
        -- left. reflexivity.
      * rewrite IH. apply Hskip.
        intros (t' & p' & Ht' & Hp' & Htest'). congruence.
    + rewrite IH. apply Hskip.
      intros (t' & p' & Ht' & Hp' & Htest'). congruence.
    + rewrite IH. apply Hskip.
      intros (t' & p' & Ht' & Hp' & Htest'). congruence.
Qed.

(** [needsUpdate] is set exactly when the test of the loop succeeded at
    some index; when it is not set, the buffer is as it was. *)
Theorem needsUpdate_iff_some_test (st : MorphState num) :
  (snd (tick PARTICLE_COUNT st) = true <->
   exists m, m < PARTICLE_COUNT * 3 /\
             moves (targetPositions st) (positions st) m) /\
  (snd (tick PARTICLE_COUNT st) = false ->
   positions (tick_state PARTICLE_COUNT st) = positions st).
Proof.
  assert (Hflag : snd (tick PARTICLE_COUNT st)
                  = snd (lerp_loop (PARTICLE_COUNT * 3) 0 (targetPositions st)
                                   (positions st) false)).
  { unfold tick. destruct (lerp_loop _ _ _ _ _); reflexivity. }
  assert (Hiff : snd (tick PARTICLE_COUNT st) = true <->
                 exists m, m < PARTICLE_COUNT * 3 /\
                           moves (targetPositions st) (positions st) m).
  { rewrite Hflag, lerp_loop_flag. split.
    - intros [H|(m & Hm & Hmv)]; [discriminate|]. exists m. split; [lia|auto].
    - intros (m & Hm & Hmv). right. exists m. split; [lia|auto]. }
  split; [exact Hiff|].
  intros Hfalse. apply nth_error_ext. intros m.
  rewrite tick_state_nth.
  destruct (m <? PARTICLE_COUNT * 3) eqn:E; [|reflexivity].
  apply Nat.ltb_lt in E. unfold entry_after, lerp_component.
  destruct (nth_error (targetPositions st) m) as [t|] eqn:Ht; [|reflexivity].
  destruct (nth_error (positions st) m) as [p|] eqn:Hp; [|reflexivity].
  destruct (Math_abs (t - p) >? epsilon)%js eqn:Htest; [|reflexivity].
  exfalso. rewrite (proj2 Hiff) in Hfalse; [discriminate|].
  exists m. split; [exact E|]. exists t, p. auto.
Qed.
End FlagFacts.

Section ThrowFacts.
Context {num : Type} {A : Arith num} {M : MathLib num}.
Variable rng : nat -> num.

(** In every arithmetic, whatever [Math.random] returns, a call of
    [generateParticles] for a value other than Sierpinski's returns a
    buffer of [3 * count] entries: only the chaos game reads an array at
    a computed index. *)
Theorem generateParticles_returns (shape : string) (count : nat) :
  switch_case shape <> Some Sierpinski ->
  exists buf,
    generateParticles rng shape count = Some buf /\
    length buf = 3 * count.
Proof.
  intros Hs.
  destruct (@generateParticles_total _ _ _ rng shape count) as [buf Hbuf].
  { intros i k _. apply point_total. exact Hs. }
  exists buf. split; [exact Hbuf|].
  apply generateParticles_spec in Hbuf. destruct Hbuf as [Hlen _]. lia.
Qed.
End ThrowFacts.

(** ** Whole buffers from their points *)

Section BufferFacts.
Context {num : Type}.

(** A property of all three coordinates of all points is a property of
    all entries. *)
Lemma buffer_Forall (P : num -> Prop) (buf : list num) (count : nat) :
  length buf = count * 3 ->
  (forall j, j < count ->
     exists x y z,
       nth_error buf (j * 3) = Some x /\
       nth_error buf (j * 3 + 1) = Some y /\
       nth_error buf (j * 3 + 2) = Some z /\
       P x /\ P y /\ P z) ->
  Forall P buf.
Proof.
  intros Hlen Hpts. apply Forall_forall. intros v Hin.
  apply In_nth_error in Hin. destruct Hin as [m Hm].
  assert (Hlt : m < count * 3).
  { rewrite <- Hlen. apply nth_error_Some. congruence. }
  pose proof (Nat.div_mod_eq m 3) as Hdm.
  pose proof (Nat.mod_upper_bound m 3 ltac:(lia)) as Hmod.
  destruct (Hpts (m / 3)) as (x & y & z & Hx & Hy & Hz & Px & Py & Pz).
  { apply Nat.Div0.div_lt_upper_bound. lia. }
  assert (Hc : m mod 3 = 0 \/ m mod 3 = 1 \/ m mod 3 = 2) by lia.
  destruct Hc as [Hc|[Hc|Hc]].
  - replace (m / 3 * 3) with m in Hx by lia. congruence.
  - replace (m / 3 * 3 + 1) with m in Hy by lia. congruence.
  - replace (m / 3 * 3 + 2) with m in Hz by lia. congruence.
Qed.
End BufferFacts.

(** ** The rounding to binary32 *)

Section Binary32Facts.
Import Binary32.
Local Open Scope R_scope.

Lemma Rabs_bounds (a b : R) : Rabs a <= b -> - b <= a <= b.
Proof. unfold Rabs. destruct (Rcase_abs a); lra. Qed.

Lemma pow2_pos (e : Z) : 0 < powerRZ 2 e.
Proof. apply powerRZ_lt. lra. Qed.

Lemma pow2_succ (e : Z) : powerRZ 2 (e + 1) = 2 * powerRZ 2 e.
Proof. rewrite powerRZ_add by lra. simpl. ring. Qed.

Lemma pow2_le (e1 e2 : Z) : (e1 <= e2)%Z -> powerRZ 2 e1 <= powerRZ 2 e2.
Proof.
  intros H. replace e2 with (e1 + Z.of_nat (Z.to_nat (e2 - e1)))%Z by lia.
  induction (Z.to_nat (e2 - e1)) as [|k IH].
  - rewrite Z.add_0_r. lra.
  - rewrite Nat2Z.inj_succ, <- Z.add_1_r, Z.add_assoc, pow2_succ.
    pose proof (pow2_pos (e1 + Z.of_nat k)). lra.
Qed.

Lemma pow2_lt (e1 e2 : Z) : (e1 < e2)%Z -> powerRZ 2 e1 < powerRZ 2 e2.
Proof.
  intros H. apply Rlt_le_trans with (powerRZ 2 (e1 + 1)).
  - rewrite pow2_succ. pose proof (pow2_pos e1). lra.
  - apply pow2_le. lia.
Qed.

Lemma binade_spec (fuel : nat) :
  forall (e : Z) (a : R),
    let r := binade fuel e a in
    (e - Z.of_nat fuel <= r <= e)%Z /\
    (powerRZ 2 r <= a \/ r = (e - Z.of_nat fuel)%Z) /\
    ((r < e)%Z -> a < powerRZ 2 (r + 1)).
Proof.
  induction fuel as [|fuel IH]; intros e a; cbn [binade].
  - cbv zeta. split; [lia|]. split; [right; lia|lia].
  - destruct (Rle_dec (powerRZ 2 e) a) as [Hle|Hgt].
    + cbv zeta. split; [lia|]. split; [left; exact Hle|lia].
    + specialize (IH (e - 1)%Z a). cbv zeta in *.
      destruct IH as (Hr & Hor & Hup).
      split; [lia|]. split.
      * destruct Hor as [H|H]; [left; exact H|right; lia].
      * intros _.
        destruct (Z.eq_dec (binade fuel (e - 1) a) (e - 1)) as [E|E].
        -- rewrite E. replace (e - 1 + 1)%Z with e by lia. lra.
        -- apply Hup. lia.
Qed.

Lemma exponent_spec (a : R) :
  (-126 <= exponent a <= 127)%Z /\
  (powerRZ 2 (exponent a) <= a \/ exponent a = (-126)%Z) /\
  ((exponent a < 127)%Z -> a < powerRZ 2 (exponent a + 1)).
Proof.
  pose proof (binade_spec 253 127 a) as H. cbv zeta in H.
  unfold exponent. simpl Z.of_nat in H.
  destruct H as (H1 & H2 & H3). split; [lia|]. split; [|exact H3].
  destruct H2 as [H|H]; [left; exact H|right; lia].
Qed.

Lemma exponent_unique (a : R) (e : Z) :
  (-126 <= e <= 127)%Z ->
  powerRZ 2 e <= a < powerRZ 2 (e + 1) ->
  exponent a = e.
Proof.
  intros He [Hlo Hhi].
  destruct (exponent_spec a) as (Hr & Hor & Hup).
  destruct (Z.lt_trichotomy (exponent a) e) as [Hlt|[Heq|Hgt]];
    [|exact Heq|]; exfalso.
  - specialize (Hup ltac:(lia)).
    pose proof (pow2_le (exponent a + 1) e ltac:(lia)). lra.
  - destruct Hor as [H|H]; [|lia].
    pose proof (pow2_le (e + 1) (exponent a) ltac:(lia)). lra.
Qed.

Lemma nearest_even_err (y : R) : Rabs (IZR (nearest_even y) - y) <= 1 / 2.
Proof.
  unfold nearest_even. destruct (base_Int_part y) as [Hlo Hhi].
  destruct (Rlt_dec _ _) as [H|H].
  - apply Rabs_le. lra.
  - destruct (Rlt_dec _ _) as [H'|H'].
    + rewrite plus_IZR. apply Rabs_le. lra.
    + destruct (Z.even _); [|rewrite plus_IZR]; apply Rabs_le; lra.
Qed.

Lemma nearest_even_le (y : R) (N : Z) : y <= IZR N -> (nearest_even y <= N)%Z.
Proof.
  intros Hy. unfold nearest_even. destruct (base_Int_part y) as [Hlo Hhi].
  assert (Hn : (Int_part y <= N)%Z) by (apply le_IZR; lra).
  destruct (Rlt_dec _ _) as [H|H]; [exact Hn|].
  assert (Hlt : (Int_part y < N)%Z).
  { apply lt_IZR. lra. }
  destruct (Rlt_dec _ _) as [H'|H']; [lia|].
  destruct (Z.even _); lia.
Qed.

Lemma nearest_even_ge (y : R) (N : Z) : IZR N <= y -> (N <= nearest_even y)%Z.
Proof.
  intros Hy. unfold nearest_even. destruct (base_Int_part y) as [Hlo Hhi].
  assert (Hn : (N <= Int_part y)%Z).
  { apply Z.lt_succ_r. apply lt_IZR. rewrite succ_IZR. lra. }
  destruct (Rlt_dec _ _) as [H|H]; [exact Hn|].
  destruct (Rlt_dec _ _) as [H'|H']; [lia|].
  destruct (Z.even _); lia.
Qed.

Lemma nearest_even_unique (y : R) (n : Z) :
  Rabs (y - IZR n) < 1 / 2 -> nearest_even y = n.
Proof.
  intros H. apply Rabs_def2 in H. destruct H as [H1 H2].
  pose proof (nearest_even_err y) as He. apply Rabs_bounds in He.
  assert (Hd : -1 < IZR (nearest_even y) - IZR n < 1) by lra.
  rewrite <- minus_IZR in Hd. destruct Hd as [Hd1 Hd2].
  apply lt_IZR in Hd1, Hd2. lia.
Qed.

Lemma spacing_pos (x : R) : 0 < spacing x.
Proof. apply pow2_pos. Qed.

Lemma R_fround_err (x : R) : Rabs (R_fround x - x) <= spacing x / 2.
Proof.
  unfold R_fround. pose proof (spacing_pos x) as Hq.
  pose proof (nearest_even_err (x / spacing x)) as He.
  replace (IZR (nearest_even (x / spacing x)) * spacing x - x)
    with ((IZR (nearest_even (x / spacing x)) - x / spacing x) * spacing x)
    by (field; lra).
  rewrite Rabs_mult, (Rabs_right (spacing x)) by lra.
  apply Rmult_le_compat_r with (r := spacing x) in He; lra.
Qed.

Lemma spacing_le (x : R) :
  spacing x <= Rabs x / 2 ^ 23 \/ spacing x = powerRZ 2 (-149).
Proof.
  unfold spacing. destruct (exponent_spec (Rabs x)) as (_ & [H|H] & _).
  - left. replace (exponent (Rabs x) - 23)%Z with (exponent (Rabs x) + -23)%Z by lia.
    rewrite powerRZ_add by lra.
    replace (powerRZ 2 (-23)) with (/ 2 ^ 23) by reflexivity.
    unfold Rdiv. apply Rmult_le_compat_r; [|exact H].
    apply Rlt_le, Rinv_0_lt_compat, pow_lt. lra.
  - right. rewrite H. reflexivity.
Qed.

Lemma R_fround_rel_err (x : R) :
  Rabs (R_fround x - x) <= Rabs x / 2 ^ 24 + / 2 ^ 150.
Proof.
  pose proof (R_fround_err x) as He. pose proof (Rabs_pos x) as Hx.
  assert (H150 : 0 < / 2 ^ 150) by (apply Rinv_0_lt_compat, pow_lt; lra).
  assert (H23 : 0 < / 2 ^ 23) by (apply Rinv_0_lt_compat, pow_lt; lra).
  destruct (spacing_le x) as [H|H].
  - replace (Rabs x / 2 ^ 24) with (Rabs x / 2 ^ 23 / 2) by (simpl; field).
    lra.
  - rewrite H in He.
    replace (powerRZ 2 (-149) / 2) with (/ 2 ^ 150) in He.
    + assert (0 <= Rabs x / 2 ^ 24); [|lra].
      apply Rmult_le_pos; [lra|]. apply Rlt_le, Rinv_0_lt_compat, pow_lt. lra.
    + change (powerRZ 2 (-149)) with (/ 2 ^ 149).
      replace (2 ^ 150) with (2 ^ 149 * 2) by (change 150%nat with (S 149); simpl; ring).
      field.
Qed.

Lemma IZR_pow2 (m : Z) : (0 <= m)%Z -> IZR (2 ^ m) = powerRZ 2 m.
Proof.
  intros H. rewrite <- (Z2Nat.id m) by lia.
  rewrite <- pow_IZR, pow_powerRZ. reflexivity.
Qed.

Lemma R_fround_pow2_bound (x : R) (k : Z) :
  (-126 <= k <= 127)%Z -> Rabs x <= powerRZ 2 k ->
  Rabs (R_fround x) <= powerRZ 2 k.
Proof.
  intros Hk Hx.
  destruct (exponent_spec (Rabs x)) as (He & Hor & _).
  assert (Hek : (exponent (Rabs x) <= k)%Z).
  { destruct Hor as [H|H]; [|lia].
    destruct (Z_le_gt_dec (exponent (Rabs x)) k) as [L|G]; [exact L|].
    exfalso. pose proof (pow2_lt k (exponent (Rabs x)) ltac:(lia)). lra. }
  pose proof (spacing_pos x) as Hq.
  set (q := spacing x) in *.
  set (N := (2 ^ (k - (exponent (Rabs x) - 23)))%Z).
  assert (HN : IZR N * q = powerRZ 2 k).
  { unfold N, q, spacing. rewrite IZR_pow2 by lia.
    rewrite <- powerRZ_add by lra. f_equal. lia. }
  apply Rabs_bounds in Hx.
  unfold R_fround. fold q.
  assert (Hup : (nearest_even (x / q) <= N)%Z).
  { apply nearest_even_le. apply Rmult_le_reg_r with q; [lra|].
    unfold Rdiv. rewrite Rmult_assoc, Rinv_l by lra. lra. }
  assert (Hdn : (- N <= nearest_even (x / q))%Z).
  { apply nearest_even_ge. rewrite opp_IZR.
    apply Rmult_le_reg_r with q; [lra|].
    unfold Rdiv. rewrite Rmult_assoc, Rinv_l by lra. lra. }
  apply IZR_le in Hup, Hdn. rewrite opp_IZR in Hdn.
  apply Rabs_le. split.
  - apply Rmult_le_compat_r with (r := q) in Hdn; lra.
  - apply Rmult_le_compat_r with (r := q) in Hup; lra.
Qed.

Lemma exponent_below (a : R) (k : Z) :
  (-126 <= k)%Z -> a < powerRZ 2 (k + 1) -> (exponent a <= k)%Z.
Proof.
  intros Hk Ha. destruct (exponent_spec a) as (_ & Hor & _).
  destruct (Z_le_gt_dec (exponent a) k) as [L|G]; [exact L|].
  exfalso. destruct Hor as [H|H]; [|lia].
  pose proof (pow2_le (k + 1) (exponent a) ltac:(lia)). lra.
Qed.

(** The store keeps a number of magnitude at most 10 within [[-10, 10]]:
    10 is a multiple of the spacing of every binade up to its own. *)
Lemma R_fround_bound_10 (x : R) : Rabs x <= 10 -> Rabs (R_fround x) <= 10.
Proof.
  intros Hx.
  destruct (exponent_spec (Rabs x)) as (He & _ & _).
  assert (Hek : (exponent (Rabs x) <= 3)%Z).
  { apply exponent_below; [lia|]. simpl. lra. }
  pose proof (spacing_pos x) as Hq.
  set (q := spacing x) in *.
  set (N := (5 * 2 ^ (24 - exponent (Rabs x)))%Z).
  assert (HN : IZR N * q = 10).
  { unfold N, q, spacing. rewrite mult_IZR, IZR_pow2 by lia.
    rewrite Rmult_assoc, <- powerRZ_add by lra.
    replace (24 - exponent (Rabs x) + (exponent (Rabs x) - 23))%Z
      with 1%Z by lia.
    simpl. lra. }
  apply Rabs_bounds in Hx.
  unfold R_fround. fold q.
  assert (Hup : (nearest_even (x / q) <= N)%Z).
  { apply nearest_even_le. apply Rmult_le_reg_r with q; [lra|].
    unfold Rdiv. rewrite Rmult_assoc, Rinv_l by lra. lra. }
  assert (Hdn : (- N <= nearest_even (x / q))%Z).
  { apply nearest_even_ge. rewrite opp_IZR.
    apply Rmult_le_reg_r with q; [lra|].
    unfold Rdiv. rewrite Rmult_assoc, Rinv_l by lra. lra. }
  apply IZR_le in Hup, Hdn. rewrite opp_IZR in Hdn.
  apply Rabs_le. split.
  - apply Rmult_le_compat_r with (r := q) in Hdn; lra.
  - apply Rmult_le_compat_r with (r := q) in Hup; lra.
Qed.

Lemma R_fround_eval (x : R) (e n : Z) :
  (-126 <= e <= 127)%Z ->
  powerRZ 2 e <= Rabs x < powerRZ 2 (e + 1) ->
  Rabs (x / powerRZ 2 (e - 23) - IZR n) < 1 / 2 ->
  R_fround x = IZR n * powerRZ 2 (e - 23).
Proof.
  intros He Hx Hn. unfold R_fround, spacing.
  rewrite (exponent_unique (Rabs x) e He Hx).
  rewrite (nearest_even_unique _ n Hn). reflexivity.
Qed.

(** The step of the stalled component: 4096 + (3/2048) * 0.05 is stored
    as 4096. *)
Example R_fround_stall : R_fround (4096 + 3 / 2048 * (5 / 100)) = 4096.
Proof.
  rewrite (R_fround_eval _ 12 8388608).
  - simpl. lra.
  - lia.
  - rewrite Rabs_right by lra. simpl. lra.
  - simpl. apply Rabs_def1; lra.
Qed.
End Binary32Facts.

(** ** Exact arithmetic: the generator *)

Section RealGenerator.
Variable rng : nat -> R.

Local Open Scope R_scope.

Lemma Sphere_norm (phi theta : R) :
  sqrt ((10 * sin phi * cos theta) * (10 * sin phi * cos theta)
        + (10 * sin phi * sin theta) * (10 * sin phi * sin theta)
        + (10 * cos phi) * (10 * cos phi)) = 10.
Proof.
  pose proof (sin2_cos2 phi) as Hp. pose proof (sin2_cos2 theta) as Ht.
  unfold Rsqr in Hp, Ht.
  replace (_ + _ + _)
    with (10 * 10 * (sin phi * sin phi
                     * (sin theta * sin theta + cos theta * cos theta)
                     + cos phi * cos phi)) by ring.
  rewrite Ht, Rmult_1_r, Hp, Rmult_1_r.
  apply sqrt_square. lra.
Qed.

Lemma Clifford_radius (u v : R) :
  5 <= sqrt (((8 + 3 * cos v) * cos u) * ((8 + 3 * cos v) * cos u)
             + ((8 + 3 * cos v) * sin u) * ((8 + 3 * cos v) * sin u)) <= 11.
Proof.
  pose proof (sin2_cos2 u) as Hu. unfold Rsqr in Hu.
  pose proof (COS_bound v) as Hv.
  replace (_ + _)
    with ((8 + 3 * cos v) * (8 + 3 * cos v)
          * (sin u * sin u + cos u * cos u)) by ring.
  rewrite Hu, Rmult_1_r, sqrt_square; lra.
Qed.

(** The Sphere branch in exact arithmetic, for every count: each point is
    at distance 10 from the origin. *)
Lemma Sphere_points_on_sphere (count : nat) :
  exists buf,
    generateParticles rng (ShapeType_value Sphere) count = Some buf /\
    length buf = (count * 3)%nat /\
    forall i, (i < count)%nat ->
      exists x y z, point_at buf i x y z /\
                    sqrt (x * x + y * y + z * z) = 10.
Proof.
  destruct (@generateParticles_total _ _ _ rng (ShapeType_value Sphere) count)
    as [buf Hbuf].
  { intros i k _. apply point_total. discriminate. }
  exists buf. split; [exact Hbuf|].
  apply generateParticles_spec in Hbuf. destruct Hbuf as [Hlen Hpts].
  split; [exact Hlen|]. intros i Hi.
  destruct (Hpts i Hi) as (kj & p & kj' & Hp & Hh).
  simpl in Hp. unfold Sphere_point, ret in Hp. inversion Hp; subst; clear Hp.
  unfold holds_point in Hh.
  do 3 eexists. split; [exact Hh|].
  apply Sphere_norm.
Qed.

(** The Clifford branch in exact arithmetic, for every count. *)
Lemma Clifford_points_in_ring (count : nat) :
  exists buf,
    generateParticles rng (ShapeType_value Clifford) count = Some buf /\
    length buf = (count * 3)%nat /\
    forall i, (i < count)%nat ->
      exists x y z, point_at buf i x y z /\
                    5 <= sqrt (x * x + y * y) <= 11.
Proof.
  destruct (@generateParticles_total _ _ _ rng (ShapeType_value Clifford)
              count) as [buf Hbuf].
  { intros i k _. apply point_total. discriminate. }
  exists buf. split; [exact Hbuf|].
  apply generateParticles_spec in Hbuf. destruct Hbuf as [Hlen Hpts].
  split; [exact Hlen|]. intros i Hi.
  destruct (Hpts i Hi) as (kj & p & kj' & Hp & Hh).
  simpl in Hp. unfold Clifford_point, ret in Hp.
  inversion Hp; subst; clear Hp.
  unfold holds_point in Hh.
  do 3 eexists. split; [exact Hh|].
  apply Clifford_radius.
Qed.

End RealGenerator.

(** ** Exact arithmetic: where the generator departs from the claims *)

Section RealCounterexamples.
Local Open Scope R_scope.

(** No Euler step of the Lorenz system reaches the positive z axis from
    outside it. *)
Lemma Lorenz_step_axis (s : R * R * R) :
  on_axis (Lorenz_step s) -> on_axis s.
Proof.
  destruct s as [[x y] z]. unfold on_axis.
  cbv [Lorenz_step int dec num_of_Z num_add num_sub num_mul num_div R_Arith
       fst snd].
  intros (Hx & Hy & Hz).
  assert (Hy0 : y = - (97 / 3) * x) by lra.
  subst y.
  destruct (Req_dec x 0) as [E|E].
  - subst x. repeat split; lra.
  - exfalso.
    assert (Hz0 : x * (- (97 / 3) * (997 / 1000)
                       + (28 - z) * (3 / 1000)) = 0) by lra.
    apply Rmult_integral in Hz0. destruct Hz0 as [Hz0|Hz0]; [contradiction|].
    assert (Hsq : 0 <= x * x) by apply Rle_0_sqr.
    nra.
Qed.

Lemma Lorenz_loop_axis (n : nat) :
  forall s : R * R * R, on_axis (Lorenz_loop n s) -> on_axis s.
Proof.
  induction n as [|n IH]; intros s; simpl; [auto|].
  intros H. apply Lorenz_step_axis, IH, H.
Qed.

(** The trajectory from [(1, 1, 1)] never has its sample at the origin. *)
Lemma Lorenz_sample_not_origin (i : nat) :
  @Lorenz_trajectory_sample R _ i <> (0, 0, 0).
Proof.
  rewrite <- Lorenz_sample_classical. unfold Lorenz_sample.
  pose proof (Lorenz_loop_axis (50 + i mod 2000) (1, 1, 1)) as H.
  change (@int R _ 1) with 1.
  destruct (Lorenz_loop (50 + i mod 2000) (1, 1, 1)) as [[x y] z].
  intros E. inversion E as [[Hx Hy Hz]].
  cbv [int num_of_Z num_sub R_Arith] in Hz.
  destruct H as (H1 & _); [|simpl in H1; lra].
  unfold on_axis; simpl. repeat split; lra.
Qed.

(** C9 as stated fails at the first Lorenz point: [generateParticles] on
    Lorenz with count 1 returns the origin, which is not the sample of the
    trajectory for index 0 (nor for any index). *)
Lemma Lorenz_first_point_not_on_trajectory :
  exists buf,
    generateParticles (fun _ => 0) (ShapeType_value Lorenz) 1 = Some buf /\
    point_at buf 0 0 0 0 /\
    ~ holds_point buf 0 (@Lorenz_trajectory_sample R _ 0).
Proof.
  exists [0; 0; 0]. split; [reflexivity|]. split.
  - repeat split.
  - pose proof (Lorenz_sample_not_origin 0) as H.
    destruct (@Lorenz_trajectory_sample R _ 0) as [[x y] z].
    unfold holds_point. simpl. intros (Hx & Hy & Hz).
    apply H. congruence.
Qed.

(** C2 as stated fails for Mobius and for Trefoil: with count 1 the first
    coordinate is 7 when [Math.random] returns 0 and 8 when it returns
    1/2 (Mobius), and -1/2 and 0 (Trefoil). *)
Lemma Mobius_Trefoil_depend_on_random :
  (generateParticles (fun _ => 0) (ShapeType_value Mobius) 1
   = Some [7; 0; 0] /\
   generateParticles (fun _ => 1 / 2) (ShapeType_value Mobius) 1
   = Some [8; 0; 0]) /\
  (generateParticles (fun _ => 0) (ShapeType_value Trefoil) 1
   = Some [- (1 / 2); - (9 / 2); - (1 / 2)] /\
   generateParticles (fun _ => 1 / 2) (ShapeType_value Trefoil) 1
   = Some [0; - 4; 0]).
Proof.
  assert (Hu : forall c : R, 0 / 1 * PI * c = 0) by (intros; field).
  assert (Hm : forall c : R, c * 0 = 0) by (intros; ring).
  assert (Hh : 0 / 2 = 0) by field.
  repeat split;
    cbv [generateParticles switch_case ShapeType_value all_shapes find
         String.eqb Ascii.eqb Bool.eqb for_loop point Mobius_point
         Trefoil_point bind random Math_random ret store update
         Float32Array repeat Nat.mul Nat.add int idx dec Z.of_nat
         Pos.of_succ_nat num_of_Z num_add num_sub num_mul num_div num_neg
         Math_fround R_Arith Math_PI Math_sin Math_cos R_MathLib];
    rewrite ?Hu, ?Hm, ?Hh, ?Hu, ?cos_0, ?sin_0;
    repeat f_equal; lra.
Qed.
End RealCounterexamples.

(** ** Exact arithmetic: the morph driver *)

Section RealMorph.
Variable PARTICLE_COUNT : nat.

Local Open Scope R_scope.

Lemma lerp_component_R (t p : R) :
  lerp_component t p
  = if Rlt_dec (1 / 1000) (Rabs (t - p)) then p + (t - p) * (5 / 100) else p.
Proof.
  cbv [lerp_component epsilon lerpFactor int dec num_of_Z num_add num_sub
       num_mul num_div Math_abs num_lt Math_fround R_Arith RealArith.R_lt].
  destruct (Rlt_dec _ _); reflexivity.
Qed.

(** A component that moves covers 5% of its distance, one that does not
    move is within epsilon. *)
Lemma lerp_component_far (t p : R) :
  1 / 1000 < Rabs (t - p) ->
  lerp_component t p = p + (t - p) * (5 / 100) /\
  Rabs (t - lerp_component t p) = 95 / 100 * Rabs (t - p).
Proof.
  intros H. rewrite lerp_component_R.
  destruct (Rlt_dec _ _) as [_|n]; [|contradiction].
  split; [reflexivity|].
  replace (t - (p + (t - p) * (5 / 100))) with (95 / 100 * (t - p)) by field.
  rewrite Rabs_mult, (Rabs_right (95 / 100)); lra.
Qed.

Lemma lerp_component_near (t p : R) :
  Rabs (t - p) <= 1 / 1000 -> lerp_component t p = p.
Proof.
  intros H. rewrite lerp_component_R.
  destruct (Rlt_dec _ _) as [l|_]; [lra|reflexivity].
Qed.

Lemma lerp_component_le (t p : R) :
  Rabs (t - lerp_component t p) <= Rabs (t - p).
Proof.
  destruct (Rlt_dec (1 / 1000) (Rabs (t - p))) as [H|H].
  - destruct (lerp_component_far t p H) as [_ E]. rewrite E.
    pose proof (Rabs_pos (t - p)). lra.
  - rewrite lerp_component_near by lra. lra.
Qed.

Lemma total_distance_lerp_all (target : list R) :
  forall pos : list R,
    length pos = length target ->
    total_distance target (lerp_all target pos) <= total_distance target pos /\
    (~ all_within target pos ->
     total_distance target (lerp_all target pos) < total_distance target pos).
Proof.
  induction target as [|t target IH]; intros [|p pos] Hlen;
    simpl in Hlen; try discriminate.
  - simpl. split; [lra|]. intros H. exfalso. apply H. constructor.
  - injection Hlen as Hlen. destruct (IH pos Hlen) as [Hle Hlt].
    pose proof (lerp_component_le t p) as Hc.
    change (total_distance (t :: target) (lerp_all (t :: target) (p :: pos)))
      with (Rabs (t - lerp_component t p)
            + total_distance target (lerp_all target pos)).
    change (total_distance (t :: target) (p :: pos))
      with (Rabs (t - p) + total_distance target pos).
    split; [lra|]. intros Hn.
    destruct (Rlt_dec (1 / 1000) (Rabs (t - p))) as [Hfar|Hnear].
    + destruct (lerp_component_far t p Hfar) as [_ E]. rewrite E. lra.
    + assert (Htail : ~ all_within target pos).
      { intros Hw. apply Hn. constructor; [lra|exact Hw]. }
      specialize (Hlt Htail). lra.
Qed.

(** The distance of one component after [n] ticks. *)
Lemma lerp_component_bound (t : R) (n : nat) :
  forall p : R,
    Rabs (t - repeat_fn (lerp_component t) n p)
    <= Rmax (1 / 1000) ((95 / 100) ^ n * Rabs (t - p)).
Proof.
  induction n as [|n IH]; intros p; simpl.
  - rewrite Rmult_1_l. apply Rmax_r.
  - eapply Rle_trans; [apply IH|].
    destruct (Rlt_dec (1 / 1000) (Rabs (t - p))) as [H|H].
    + destruct (lerp_component_far t p H) as [_ E]. rewrite E.
      replace ((95 / 100) ^ n * (95 / 100 * Rabs (t - p)))
        with (95 / 100 * (95 / 100) ^ n * Rabs (t - p)) by ring.
      lra.
    + rewrite lerp_component_near by lra.
      apply Rmax_lub; [apply Rmax_l|].
      eapply Rle_trans; [|apply Rmax_l].
      assert (Hpow : 0 <= (95 / 100) ^ n <= 1).
      { split; [apply pow_le; lra|].
        rewrite <- (pow1 n). apply pow_incr. lra. }
      pose proof (Rabs_pos (t - p)). nra.
Qed.

Lemma lerp_component_converges (t p : R) :
  exists N, forall n, (N <= n)%nat ->
    Rabs (t - repeat_fn (lerp_component t) n p) <= 1 / 1000.
Proof.
  pose proof (Rabs_pos (t - p)) as Hpos.
  destruct (pow_lt_1_zero (95 / 100)) with (y := 1 / 1000 / (Rabs (t - p) + 1))
    as [N HN].
  { rewrite Rabs_right; lra. }
  { apply Rdiv_lt_0_compat; lra. }
  exists N. intros n Hn.
  eapply Rle_trans; [apply lerp_component_bound|].
  apply Rmax_lub; [lra|].
  specialize (HN n Hn). rewrite Rabs_right in HN
    by (apply Rle_ge, pow_le; lra).
  assert (Hpow : 0 <= (95 / 100) ^ n) by (apply pow_le; lra).
  apply Rlt_le.
  apply Rle_lt_trans with ((95 / 100) ^ n * (Rabs (t - p) + 1)); [nra|].
  apply (Rmult_lt_compat_r (Rabs (t - p) + 1)) in HN; [|lra].
  unfold Rdiv in HN at 2. rewrite Rmult_assoc, Rinv_l, Rmult_1_r in HN; lra.
Qed.

Lemma lerp_all_converges (target : list R) :
  forall pos : list R,
    length pos = length target ->
    exists N, forall n, (N <= n)%nat ->
      all_within target (repeat_fn (lerp_all target) n pos).
Proof.
  induction target as [|t target IH]; intros [|p pos] Hlen;
    simpl in Hlen; try discriminate.
  - exists 0%nat. intros n _. rewrite repeat_lerp_all_nil. constructor.
  - injection Hlen as Hlen. destruct (IH pos Hlen) as [N1 H1].
    destruct (lerp_component_converges t p) as [N2 H2].
    exists (Nat.max N1 N2). intros n Hn.
    rewrite repeat_lerp_all_cons. constructor.
    + apply H2. lia.
    + apply H1. lia.
Qed.


(** In exact arithmetic the tick after a replacement of the target moves
    each component by at most 0.05 times its distance to the new target. *)
Lemma retarget_step_exact (st : MorphState R) (newTarget : list R) :
  forall i p t' p',
    nth_error (positions st) i = Some p ->
    nth_error newTarget i = Some t' ->
    nth_error (positions (tick_state PARTICLE_COUNT (retarget newTarget st))) i
    = Some p' ->
    Rabs (p' - p) <= 5 / 100 * Rabs (t' - p).
Proof.
  intros i p t' p' Hp Ht' Hp'.
  rewrite tick_state_nth in Hp'. simpl in Hp'.
  pose proof (Rabs_pos (t' - p)) as Hpos.
  assert (Hsame : p' = p -> Rabs (p' - p) <= 5 / 100 * Rabs (t' - p)).
  { intros ->. replace (p - p) with 0 by ring. rewrite Rabs_R0. lra. }
  destruct (i <? PARTICLE_COUNT * 3)%nat; [|apply Hsame; congruence].
  unfold entry_after in Hp'. rewrite Ht', Hp in Hp'.
  inversion Hp' as [E]; clear Hp'. clear Hsame.
  destruct (Rlt_dec (1 / 1000) (Rabs (t' - p))) as [Hfar|Hnear].
  - destruct (lerp_component_far t' p Hfar) as [E' _]. rewrite E'.
    replace (p + (t' - p) * (5 / 100) - p) with (5 / 100 * (t' - p)) by ring.
    rewrite Rabs_mult, (Rabs_right (5 / 100)); lra.
  - rewrite lerp_component_near by lra.
    replace (p - p) with 0 by ring. rewrite Rabs_R0. lra.
Qed.
End RealMorph.

(** ** Where the morph driver departs from the claims *)

Section MorphCounterexamples.
Local Open Scope R_scope.

(** In exact arithmetic a component that is exactly epsilon from its
    target is never moved. *)
Lemma boundary_component_stays (n : nat) :
  positions (ticks 1 n (mkMorphState [0; 0; 0] [1 / 1000; 0; 0]))
  = [0; 0; 0].
Proof.
  assert (E1 : lerp_component (1 / 1000) 0 = 0).
  { apply lerp_component_near.
    replace (1 / 1000 - 0) with (1 / 1000) by ring. rewrite Rabs_right; lra. }
  assert (E2 : lerp_component 0 0 = 0).
  { apply lerp_component_near.
    replace (0 - 0) with 0 by ring. rewrite Rabs_R0. lra. }
  rewrite ticks_lerp_all by (simpl; lia). simpl.
  induction n as [|n IH]; simpl; [reflexivity|].
  rewrite E1, E2. exact IH.
Qed.

Lemma stalled_state_tick : tick 1 stalled_state = (stalled_state, true).
Proof. vm_compute. reflexivity. Qed.

Lemma stalled_state_ticks (n : nat) : ticks 1 n stalled_state = stalled_state.
Proof.
  induction n as [|n IH]; simpl; [reflexivity|].
  unfold tick_state. rewrite stalled_state_tick. exact IH.
Qed.

(** C8 as stated fails: with the current component 0, the old target 1
    and the new target 100, the tick after the replacement moves the
    component to 5, which is more than 0.05 times the distance 1 to the
    old target; the same numbers come out in binary64. *)
Lemma retarget_jump_exceeds_old_distance :
  (positions (tick_state 1 (retarget [100; 0; 0]
                                     (mkMorphState [0; 0; 0] [1; 0; 0])))
   = [5; 0; 0] /\
   5 / 100 * Rabs (1 - 0) < Rabs (5 - 0)) /\
  (positions (tick_state 1
                (retarget [int 100; int 0; int 0]
                   (@mkMorphState PrimFloat.float [int 0; int 0; int 0]
                                  [int 1; int 0; int 0])))
   = [int 5; int 0; int 0] /\
   (lerpFactor * Math_abs (int 1 - int 0) <? Math_abs (int 5 - int 0))%js
   = true).
Proof.
  split; split.
  - rewrite tick_state_lerp_all by (simpl; lia). simpl.
    rewrite (lerp_component_near 0 0).
    2:{ replace (0 - 0) with 0 by ring. rewrite Rabs_R0. lra. }
    destruct (lerp_component_far 100 0) as [E _].
    { replace (100 - 0) with 100 by ring. rewrite Rabs_right; lra. }
    rewrite E. repeat f_equal. lra.
  - replace (1 - 0) with 1 by ring. replace (5 - 0) with 5 by ring.
    rewrite !Rabs_right; lra.
  - vm_compute. reflexivity.
  - vm_compute. reflexivity.
Qed.
End MorphCounterexamples.

(** ** Exact arithmetic with binary32 stores: the generator *)

Section StoredGenerator.
Import Binary32.
Variable rng : nat -> R.

Local Open Scope R_scope.

(** The square of a stored coordinate of magnitude at most [B]. *)
Lemma stored_square (x B : R) :
  Rabs x <= B ->
  let e := x * x / 2 ^ 24 + B / 2 ^ 150 in
  let E := B / 2 ^ 24 + / 2 ^ 150 in
  x * x - 2 * e <= R_fround x * R_fround x <= x * x + 2 * e + E * E.
Proof.
  intros HB e E.
  pose proof (R_fround_rel_err x) as Herr.
  pose proof (Rabs_pos x) as Hx0. pose proof (Rabs_pos (R_fround x - x)) as Hd0.
  set (d := R_fround x - x) in *.
  replace (R_fround x) with (x + d) by (unfold d; ring).
  assert (Hxx : Rabs x * Rabs x = x * x).
  { rewrite <- Rabs_mult. apply Rabs_right. apply Rle_ge, Rle_0_sqr. }
  assert (Hdd : Rabs d * Rabs d = d * d).
  { rewrite <- Rabs_mult. apply Rabs_right. apply Rle_ge, Rle_0_sqr. }
  assert (Hxd : Rabs (x * d) <= e).
  { rewrite Rabs_mult. unfold e.
    apply Rle_trans with (Rabs x * (Rabs x / 2 ^ 24 + / 2 ^ 150)).
    - apply Rmult_le_compat_l; lra.
    - replace (Rabs x * (Rabs x / 2 ^ 24 + / 2 ^ 150))
        with (Rabs x * Rabs x / 2 ^ 24 + Rabs x / 2 ^ 150) by (field; lra).
      rewrite Hxx. apply Rplus_le_compat_l.
      apply Rmult_le_compat_r; lra. }
  assert (HdE : d * d <= E * E).
  { rewrite <- Hdd.
    assert (Rabs d <= E) by (unfold E; lra).
    apply Rmult_le_compat; lra. }
  apply Rabs_bounds in Hxd.
  replace ((x + d) * (x + d)) with (x * x + 2 * (x * d) + d * d) by ring.
  pose proof (Rle_0_sqr d) as Hsq. unfold Rsqr in Hsq.
  split; lra.
Qed.

Lemma square_bound (x s : R) : x * x <= s * s -> 0 <= s -> Rabs x <= s.
Proof.
  intros H Hs. apply Rabs_le. split; nra.
Qed.

(** C5: every point of the buffer [generateParticles(Sphere, 12)] returns,
    its coordinates as the binary32 store leaves them, is at Euclidean
    distance 10 from the origin within 1e-6.  (The arithmetic before the
    store is exact; there the distance is 10.) *)
Theorem Sphere_12_points_at_distance_10 :
  exists buf,
    @generateParticles R S_Arith R_MathLib rng (ShapeType_value Sphere) 12
    = Some buf /\
    length buf = 36%nat /\
    forall i, (i < 12)%nat ->
      exists x y z, point_at buf i x y z /\
                    Rabs (sqrt (x * x + y * y + z * z) - 10) <= 1 / 1000000.
Proof.
  destruct (@generateParticles_total R S_Arith R_MathLib rng
              (ShapeType_value Sphere) 12) as [buf Hbuf].
  { intros i k _. apply point_total. discriminate. }
  exists buf. split; [exact Hbuf|].
  apply generateParticles_spec in Hbuf. destruct Hbuf as [Hlen Hpts].
  split; [exact Hlen|]. intros i Hi.
  destruct (Hpts i Hi) as (kj & p & kj' & Hp & Hh).
  simpl in Hp. unfold Sphere_point, ret in Hp. inversion Hp; subst; clear Hp.
  unfold holds_point in Hh. cbn [Math_fround S_Arith] in Hh.
  do 3 eexists. split; [exact Hh|].
  match goal with
  | |- context [R_fround ?a * R_fround ?a + R_fround ?b * R_fround ?b
                + R_fround ?c * R_fround ?c] =>
      set (x := a); set (y := b); set (z := c)
  end.
  assert (Hn : x * x + y * y + z * z = 10 * 10).
  { pose proof (Sphere_norm
                  (acos (1 - 2 * (IZR (Z.of_nat i) / IZR (Z.of_nat 12))))
                  (PI * (1 + sqrt 5) * IZR (Z.of_nat i))) as Hs.
    apply (f_equal (fun v => v * v)) in Hs.
    rewrite sqrt_sqrt in Hs; [exact Hs|].
    apply Rplus_le_le_0_compat; [apply Rplus_le_le_0_compat|];
      apply Rle_0_sqr. }
  pose proof (Rle_0_sqr x) as Hx2. pose proof (Rle_0_sqr y) as Hy2.
  pose proof (Rle_0_sqr z) as Hz2. unfold Rsqr in Hx2, Hy2, Hz2.
  pose proof (stored_square x 10 ltac:(apply square_bound; lra)) as Sx.
  pose proof (stored_square y 10 ltac:(apply square_bound; lra)) as Sy.
  pose proof (stored_square z 10 ltac:(apply square_bound; lra)) as Sz.
  cbv zeta in Sx, Sy, Sz.
  set (S' := R_fround x * R_fround x + R_fround y * R_fround y
             + R_fround z * R_fround z) in *.
  assert (Hlo : (10 - 1 / 1000000) * (10 - 1 / 1000000) <= S') by (unfold S'; lra).
  assert (Hhi : S' <= (10 + 1 / 1000000) * (10 + 1 / 1000000)) by (unfold S'; lra).
  apply Rabs_le. split.
  - apply sqrt_le_1_alt in Hlo. rewrite sqrt_square in Hlo; lra.
  - apply sqrt_le_1_alt in Hhi. rewrite sqrt_square in Hhi; lra.
Qed.
End StoredGenerator.

(** ** Exact arithmetic with binary32 stores: the Clifford torus *)

Section StoredClifford.
Import Binary32.
Local Open Scope R_scope.

Lemma sqrt_above (a x : R) : 0 <= a -> a * a < x -> a < sqrt x.
Proof.
  intros Ha H. apply Rle_lt_trans with (sqrt (a * a)).
  - rewrite sqrt_square by exact Ha. lra.
  - apply sqrt_lt_1_alt. split; [apply Rle_0_sqr|exact H].
Qed.

Lemma sqrt_below (b x : R) : 0 <= b -> 0 <= x -> x < b * b -> sqrt x < b.
Proof.
  intros Hb Hx H. apply Rlt_le_trans with (sqrt (b * b)).
  - apply sqrt_lt_1_alt. split; [exact Hx|exact H].
  - rewrite sqrt_square by exact Hb. lra.
Qed.

Lemma sqrt_5_enclosure : 2.2360679774 < sqrt 5 < 2.2360679775.
Proof.
  split; [apply sqrt_above|apply sqrt_below]; lra.
Qed.

Lemma cos_PI5 : cos (PI / 5) = (1 + sqrt 5) / 4.
Proof.
  pose proof PI_RGT_0 as Hpi.
  assert (Hs : 0 < sin (PI / 5)) by (apply sin_gt_0; lra).
  assert (Hc : 0 < cos (PI / 5)) by (apply cos_gt_0; lra).
  assert (H3 : sin (2 * (PI / 5) + PI / 5) = sin (2 * (PI / 5))).
  { replace (2 * (PI / 5) + PI / 5) with (PI - 2 * (PI / 5)) by field.
    apply sin_PI_x. }
  rewrite sin_plus, sin_2a, cos_2a_cos in H3.
  set (s := sin (PI / 5)) in *. set (c := cos (PI / 5)) in *.
  assert (Hq : 4 * c * c - 2 * c - 1 = 0).
  { assert (Hz : s * (4 * c * c - 2 * c - 1) = 0) by lra.
    apply Rmult_integral in Hz. destruct Hz; lra. }
  pose proof sqrt_5_enclosure as H5.
  pose proof (sqrt_sqrt 5 ltac:(lra)) as Hsq.
  assert (Hf : (4 * c - 1 - sqrt 5) * (4 * c - 1 + sqrt 5) = 0) by lra.
  apply Rmult_integral in Hf. destruct Hf; lra.
Qed.

Lemma sin_PI5_square : sin (PI / 5) * sin (PI / 5) = (10 - 2 * sqrt 5) / 16.
Proof.
  pose proof (sin2_cos2 (PI / 5)) as H. unfold Rsqr in H.
  rewrite cos_PI5 in H.
  pose proof (sqrt_sqrt 5 ltac:(lra)) as Hsq. lra.
Qed.

Lemma cos_4PI5 : cos (PI - PI / 5) = - cos (PI / 5).
Proof. rewrite cos_minus, cos_PI, sin_PI. ring. Qed.

Lemma x400_stored : R_fround x400 = IZR (-9331474) * powerRZ 2 (-20).
Proof.
  pose proof sqrt_5_enclosure as H5. unfold x400.
  apply (R_fround_eval _ 3 (-9331474)).
  - lia.
  - rewrite Rabs_left by lra. simpl. lra.
  - simpl. apply Rabs_def1; lra.
Qed.

Lemma y400_enclosure : 13559424.6 / 2 ^ 21 < y400 < 13559425.4 / 2 ^ 21.
Proof.
  pose proof sqrt_5_enclosure as H5. pose proof sin_PI5_square as Hs.
  pose proof PI_RGT_0 as Hpi.
  assert (Hpos : 0 < sin (PI / 5)) by (apply sin_gt_0; lra).
  unfold y400. set (s := sin (PI / 5)) in *.
  assert (Hlo : (13559424.6 / 2 ^ 21 / 11) * (13559424.6 / 2 ^ 21 / 11) < s * s)
    by lra.
  assert (Hhi : s * s < (13559425.4 / 2 ^ 21 / 11) * (13559425.4 / 2 ^ 21 / 11))
    by lra.
  split; nra.
Qed.

Lemma y400_stored : R_fround y400 = IZR 13559425 * powerRZ 2 (-21).
Proof.
  pose proof y400_enclosure as Hy.
  apply (R_fround_eval _ 2 13559425).
  - lia.
  - rewrite Rabs_right by lra. simpl. lra.
  - simpl. apply Rabs_def1; lra.
Qed.

(** C6 as stated fails at the point of index 400, where [v = 0] and the
    distance before the store is exactly 11: the store leaves
    [x = -9331474 / 2^20] and [y = 13559425 / 2^21], at distance
    11.00000007 from the z axis. *)
Lemma Clifford_point_400_outside_ring :
  exists buf,
    @generateParticles R S_Arith R_MathLib (fun _ => 0)
      (ShapeType_value Clifford) 1000 = Some buf /\
    exists x y z, point_at buf 400 x y z /\ 11 < sqrt (x * x + y * y).
Proof.
  destruct (@generateParticles_total R S_Arith R_MathLib (fun _ => 0)
              (ShapeType_value Clifford) 1000) as [buf Hbuf].
  { intros i k _. apply point_total. discriminate. }
  exists buf. split; [exact Hbuf|].
  apply generateParticles_spec in Hbuf. destruct Hbuf as [_ Hpts].
  destruct (Hpts 400%nat ltac:(lia)) as (kj & p & kj' & Hp & Hh).
  simpl in Hp. unfold Clifford_point, ret in Hp.
  inversion Hp; subst; clear Hp.
  unfold holds_point in Hh.
  cbv [int idx num_of_Z num_add num_mul num_div Math_fround S_Arith Math_PI
       Math_cos Math_sin R_MathLib] in Hh.
  replace (400 mod 200)%nat with 0%nat in Hh by reflexivity.
  replace (400 / 1000 * PI * 2) with (PI - PI / 5) in Hh by field.
  replace (0 / 200 * PI * 2) with 0 in Hh by field.
  rewrite cos_0, cos_4PI5, cos_PI5, sin_PI_x in Hh.
  replace ((8 + 3 * 1) * - ((1 + sqrt 5) / 4)) with x400 in Hh
    by (unfold x400; ring).
  replace ((8 + 3 * 1) * sin (PI / 5)) with y400 in Hh
    by (unfold y400; ring).
  rewrite x400_stored, y400_stored in Hh.
  do 3 eexists. split; [exact Hh|].
  apply sqrt_above; [lra|]. simpl. lra.
Qed.

(** C6, as amended: every point of the buffer
    [generateParticles(Clifford, 1000)] returns, its coordinates as the
    binary32 store leaves them, has its distance from the z axis in
    [[5 - 1e-6, 11 + 1e-6]].  (The arithmetic before the store is exact;
    there the distance is [8 + 3 cos v], in [[5, 11]].) *)
Theorem Clifford_1000_points_in_ring (rng : nat -> R) :
  exists buf,
    @generateParticles R S_Arith R_MathLib rng (ShapeType_value Clifford) 1000
    = Some buf /\
    length buf = 3000%nat /\
    forall i, (i < 1000)%nat ->
      exists x y z,
        point_at buf i x y z /\
        5 - 1 / 1000000 <= sqrt (x * x + y * y) <= 11 + 1 / 1000000.
Proof.
  destruct (@generateParticles_total R S_Arith R_MathLib rng
              (ShapeType_value Clifford) 1000) as [buf Hbuf].
  { intros i k _. apply point_total. discriminate. }
  exists buf. split; [exact Hbuf|].
  apply generateParticles_spec in Hbuf. destruct Hbuf as [Hlen Hpts].
  split; [exact Hlen|]. intros i Hi.
  destruct (Hpts i Hi) as (kj & p & kj' & Hp & Hh).
  simpl in Hp. unfold Clifford_point, ret in Hp.
  inversion Hp; subst; clear Hp.
  unfold holds_point in Hh. cbn [Math_fround S_Arith] in Hh.
  do 3 eexists. split; [exact Hh|].
  match goal with
  | |- context [R_fround ?a * R_fround ?a + R_fround ?b * R_fround ?b] =>
      set (x := a); set (y := b)
  end.
  assert (Hn : 5 * 5 <= x * x + y * y <= 11 * 11).
  { assert (Hr : 5 <= sqrt (x * x + y * y) <= 11)
      by (unfold x, y; apply Clifford_radius).
    assert (H0 : 0 <= x * x + y * y)
      by (apply Rplus_le_le_0_compat; apply Rle_0_sqr).
    rewrite <- (sqrt_sqrt (x * x + y * y) H0).
    pose proof (sqrt_pos (x * x + y * y)) as Hsp.
    destruct Hr as [Hr1 Hr2]. split; apply Rmult_le_compat; lra. }
  pose proof (Rle_0_sqr x) as Hx2. pose proof (Rle_0_sqr y) as Hy2.
  unfold Rsqr in Hx2, Hy2.
  pose proof (stored_square x 11 ltac:(apply square_bound; lra)) as Sx.
  pose proof (stored_square y 11 ltac:(apply square_bound; lra)) as Sy.
  cbv zeta in Sx, Sy.
  set (S' := R_fround x * R_fround x + R_fround y * R_fround y) in *.
  assert (Hlo : (5 - 1 / 1000000) * (5 - 1 / 1000000) <= S')
    by (unfold S'; lra).
  assert (Hhi : S' <= (11 + 1 / 1000000) * (11 + 1 / 1000000))
    by (unfold S'; lra).
  split.
  - apply sqrt_le_1_alt in Hlo. rewrite sqrt_square in Hlo; lra.
  - apply sqrt_le_1_alt in Hhi. rewrite sqrt_square in Hhi; lra.
Qed.
End StoredClifford.

(** ** Exact arithmetic with binary32 stores: the morph driver *)

Section StoredMorph.
Import Binary32.
Variable PARTICLE_COUNT : nat.

Local Open Scope R_scope.

Lemma lerp_component_S (t p : R) :
  @lerp_component R S_Arith t p
  = if Rlt_dec (1 / 1000) (Rabs (t - p))
    then R_fround (p + (t - p) * (5 / 100)) else p.
Proof.
  cbv [lerp_component epsilon lerpFactor int dec num_of_Z num_add num_sub
       num_mul num_div Math_abs num_lt Math_fround S_Arith RealArith.R_lt].
  destruct (Rlt_dec _ _); reflexivity.
Qed.

Lemma lerp_component_S_near (t p : R) :
  Rabs (t - p) <= 1 / 1000 -> @lerp_component R S_Arith t p = p.
Proof.
  intros H. rewrite lerp_component_S.
  destruct (Rlt_dec _ _) as [l|_]; [lra|reflexivity].
Qed.

(** A component that moves, between numbers of magnitude at most 64,
    comes nearer to its target by at least 0.000046, whatever the store
    rounds, and stays of magnitude at most 64. *)
Lemma lerp_component_S_far (t p : R) :
  Rabs t <= 64 -> Rabs p <= 64 -> 1 / 1000 < Rabs (t - p) ->
  Rabs (@lerp_component R S_Arith t p) <= 64 /\
  Rabs (t - @lerp_component R S_Arith t p) <= Rabs (t - p) - 46 / 1000000 /\
  Rabs (@lerp_component R S_Arith t p - p)
  <= 5 / 100 * Rabs (t - p) + 64 / 2 ^ 24 + / 2 ^ 150.
Proof.
  intros Ht Hp Hfar. rewrite lerp_component_S.
  destruct (Rlt_dec _ _) as [_|n]; [|contradiction].
  set (m := p + (t - p) * (5 / 100)).
  apply Rabs_bounds in Ht. apply Rabs_bounds in Hp.
  assert (Hm : Rabs m <= 64) by (apply Rabs_le; unfold m; lra).
  pose proof (R_fround_rel_err m) as Herr.
  pose proof (R_fround_pow2_bound m 6 ltac:(lia)) as Hb.
  change (powerRZ 2 6) with (2 ^ 6) in Hb.
  assert (H64 : 2 ^ 6 = 64) by lra. rewrite H64 in Hb.
  specialize (Hb Hm).
  assert (He : Rabs (R_fround m - m) <= 64 / 2 ^ 24 + / 2 ^ 150).
  { eapply Rle_trans; [exact Herr|].
    apply Rplus_le_compat_r. apply Rmult_le_compat_r; [|exact Hm].
    apply Rlt_le, Rinv_0_lt_compat, pow_lt. lra. }
  assert (Htm : Rabs (t - m) = 95 / 100 * Rabs (t - p)).
  { replace (t - m) with (95 / 100 * (t - p)) by (unfold m; field).
    rewrite Rabs_mult, (Rabs_right (95 / 100)); lra. }
  assert (Hmp : Rabs (m - p) = 5 / 100 * Rabs (t - p)).
  { replace (m - p) with (5 / 100 * (t - p)) by (unfold m; field).
    rewrite Rabs_mult, (Rabs_right (5 / 100)); lra. }
  split; [exact Hb|]. split.
  - replace (t - R_fround m) with ((t - m) + - (R_fround m - m)) by ring.
    eapply Rle_trans; [apply Rabs_triang|].
    rewrite Rabs_Ropp, Htm. lra.
  - replace (R_fround m - p) with ((m - p) + (R_fround m - m)) by ring.
    eapply Rle_trans; [apply Rabs_triang|]. rewrite Hmp. lra.
Qed.

Lemma lerp_component_S_le (t p : R) :
  Rabs t <= 64 -> Rabs p <= 64 ->
  Rabs (@lerp_component R S_Arith t p) <= 64 /\
  Rabs (t - @lerp_component R S_Arith t p) <= Rabs (t - p).
Proof.
  intros Ht Hp.
  destruct (Rlt_dec (1 / 1000) (Rabs (t - p))) as [H|H].
  - destruct (lerp_component_S_far t p Ht Hp H) as (Hb & Hd & _).
    split; [exact Hb|lra].
  - rewrite lerp_component_S_near by lra. split; [exact Hp|lra].
Qed.

Lemma lerp_all_S_bounded (target : list R) :
  forall pos : list R,
    bounded64 target -> bounded64 pos ->
    bounded64 (@lerp_all R S_Arith target pos).
Proof.
  induction target as [|t target IH]; intros [|p pos] Ht Hp; simpl; auto.
  inversion Ht; subst. inversion Hp; subst. constructor.
  - apply lerp_component_S_le; assumption.
  - apply IH; assumption.
Qed.

Lemma total_distance_lerp_all_S (target : list R) :
  forall pos : list R,
    length pos = length target ->
    bounded64 target -> bounded64 pos ->
    @total_distance R S_Arith target (@lerp_all R S_Arith target pos)
    <= @total_distance R S_Arith target pos /\
    (~ all_within target pos ->
     @total_distance R S_Arith target (@lerp_all R S_Arith target pos)
     < @total_distance R S_Arith target pos).
Proof.
  induction target as [|t target IH]; intros [|p pos] Hlen Ht Hp;
    simpl in Hlen; try discriminate.
  - simpl. split; [lra|]. intros H. exfalso. apply H. constructor.
  - injection Hlen as Hlen. inversion Ht; subst. inversion Hp; subst.
    destruct (IH pos Hlen) as [Hle Hlt]; [assumption|assumption|].
    destruct (lerp_component_S_le t p) as [_ Hc]; [assumption|assumption|].
    change (@total_distance R S_Arith (t :: target)
              (@lerp_all R S_Arith (t :: target) (p :: pos)))
      with (Rabs (t - @lerp_component R S_Arith t p)
            + @total_distance R S_Arith target
                (@lerp_all R S_Arith target pos)).
    change (@total_distance R S_Arith (t :: target) (p :: pos))
      with (Rabs (t - p) + @total_distance R S_Arith target pos).
    split; [lra|]. intros Hn.
    destruct (Rlt_dec (1 / 1000) (Rabs (t - p))) as [Hfar|Hnear].
    + destruct (lerp_component_S_far t p) as (_ & Hd & _);
        [assumption|assumption|exact Hfar|]. lra.
    + assert (Htail : ~ all_within target pos).
      { intros Hw. apply Hn. constructor; [lra|exact Hw]. }
      specialize (Hlt Htail). lra.
Qed.

Lemma lerp_component_S_fixed (t p : R) (n : nat) :
  Rabs (t - p) <= 1 / 1000 ->
  repeat_fn (@lerp_component R S_Arith t) n p = p.
Proof.
  intros H. induction n as [|n IH]; simpl; [reflexivity|].
  rewrite lerp_component_S_near by exact H. exact IH.
Qed.

(** The distance of one component after [n] ticks. *)
Lemma lerp_component_S_bound (t : R) (n : nat) :
  Rabs t <= 64 ->
  forall p : R,
    Rabs p <= 64 ->
    Rabs (t - repeat_fn (@lerp_component R S_Arith t) n p)
    <= Rmax (1 / 1000) (Rabs (t - p) - INR n * (46 / 1000000)).
Proof.
  intros Ht. induction n as [|n IH]; intros p Hp.
  - simpl. rewrite Rmult_0_l, Rminus_0_r. apply Rmax_r.
  - cbn [repeat_fn].
    destruct (Rlt_dec (1 / 1000) (Rabs (t - p))) as [H|H].
    + destruct (lerp_component_S_far t p Ht Hp H) as (Hb & Hd & _).
      eapply Rle_trans; [apply IH; exact Hb|].
      apply Rmax_lub; [apply Rmax_l|].
      eapply Rle_trans; [|apply Rmax_r]. rewrite S_INR. lra.
    + rewrite lerp_component_S_near by lra.
      rewrite lerp_component_S_fixed by lra.
      eapply Rle_trans; [|apply Rmax_l]. lra.
Qed.

(** Three million ticks are enough for every component. *)
Lemma lerp_all_S_converges (target : list R) :
  forall pos : list R,
    length pos = length target ->
    bounded64 target -> bounded64 pos ->
    forall n, (Z.to_nat 3000000 <= n)%nat ->
      all_within target (repeat_fn (@lerp_all R S_Arith target) n pos).
Proof.
  induction target as [|t target IH]; intros [|p pos] Hlen Ht Hp n Hn;
    simpl in Hlen; try discriminate.
  - rewrite repeat_lerp_all_nil. constructor.
  - injection Hlen as Hlen. inversion Ht; subst. inversion Hp; subst.
    rewrite repeat_lerp_all_cons. constructor; [|apply IH; assumption].
    eapply Rle_trans; [apply lerp_component_S_bound; assumption|].
    apply Rmax_lub; [lra|].
    assert (Hd : Rabs (t - p) <= 128).
    { replace (t - p) with (t + - p) by ring.
      eapply Rle_trans; [apply Rabs_triang|]. rewrite Rabs_Ropp. lra. }
    assert (HN : 3000000 <= INR n).
    { apply le_INR in Hn. rewrite INR_IZR_INZ, Z2Nat.id in Hn by lia.
      exact Hn. }
    nra.
Qed.


(** C8, as amended: replacing the target leaves the current buffer as it
    is, and the next tick changes each component by at most 0.05 times
    its distance to the new target: exactly so in exact arithmetic, and
    up to the rounding of the store, at most [64 / 2^24 + 2^-150] for
    components of magnitude at most 64, with the binary32 store. *)
Theorem retarget_step_bounded (st : MorphState R) (newTarget : list R) :
  positions (retarget newTarget st) = positions st /\
  targetPositions (retarget newTarget st) = newTarget /\
  (forall i p t' p',
      nth_error (positions st) i = Some p ->
      nth_error newTarget i = Some t' ->
      nth_error (positions (@tick_state R R_Arith PARTICLE_COUNT
                              (retarget newTarget st))) i = Some p' ->
      Rabs (p' - p) <= 5 / 100 * Rabs (t' - p)) /\
  (forall i p t' p',
      nth_error (positions st) i = Some p ->
      nth_error newTarget i = Some t' ->
      Rabs p <= 64 -> Rabs t' <= 64 ->
      nth_error (positions (@tick_state R S_Arith PARTICLE_COUNT
                              (retarget newTarget st))) i = Some p' ->
      Rabs (p' - p) <= 5 / 100 * Rabs (t' - p) + 64 / 2 ^ 24 + / 2 ^ 150).
Proof.
  split; [reflexivity|]. split; [reflexivity|]. split.
  - apply (retarget_step_exact PARTICLE_COUNT st newTarget).
  - intros i p t' p' Hp Ht' Bp Bt' Hp'.
    rewrite (@tick_state_nth R S_Arith) in Hp'. simpl in Hp'.
    pose proof (Rabs_pos (t' - p)) as Hpos.
    assert (H150 : 0 < / 2 ^ 150) by (apply Rinv_0_lt_compat, pow_lt; lra).
    assert (Hsame : p' = p ->
                    Rabs (p' - p)
                    <= 5 / 100 * Rabs (t' - p) + 64 / 2 ^ 24 + / 2 ^ 150).
    { intros ->. replace (p - p) with 0 by ring. rewrite Rabs_R0. lra. }
    destruct (i <? PARTICLE_COUNT * 3)%nat; [|apply Hsame; congruence].
    unfold entry_after in Hp'. rewrite Ht', Hp in Hp'.
    inversion Hp' as [E]; clear Hp'. clear Hsame.
    destruct (Rlt_dec (1 / 1000) (Rabs (t' - p))) as [Hfar|Hnear].
    + destruct (lerp_component_S_far t' p Bt' Bp Hfar) as (_ & _ & Hd).
      exact Hd.
    + rewrite lerp_component_S_near by lra.
      replace (p - p) with 0 by ring. rewrite Rabs_R0. lra.
Qed.
End StoredMorph.

(** ** The morph driver against the convergence claim *)

Section MorphDeparture.
Import Binary32.
Local Open Scope R_scope.

(** With the binary32 store, the component 4096 with target 4096 + 3/2048
    is sent to itself. *)
Lemma stalled_component_S (n : nat) :
  @ticks R S_Arith 1 n (mkMorphState [4096; 0; 0] [4096 + 3 / 2048; 0; 0])
  = mkMorphState [4096; 0; 0] [4096 + 3 / 2048; 0; 0].
Proof.
  assert (E1 : @lerp_component R S_Arith (4096 + 3 / 2048) 4096 = 4096).
  { rewrite lerp_component_S.
    destruct (Rlt_dec _ _) as [_|H].
    - replace (4096 + 3 / 2048 - 4096) with (3 / 2048) by field.
      apply R_fround_stall.
    - exfalso. apply H.
      replace (4096 + 3 / 2048 - 4096) with (3 / 2048) by field.
      rewrite Rabs_right; lra. }
  assert (E2 : @lerp_component R S_Arith 0 0 = 0).
  { apply lerp_component_S_near.
    replace (0 - 0) with 0 by ring. rewrite Rabs_R0. lra. }
  rewrite (@ticks_lerp_all R S_Arith) by (simpl; lia). simpl.
  f_equal. induction n as [|n IH]; simpl; [reflexivity|].
  rewrite E1, E2. exact IH.
Qed.

End MorphDeparture.

(** ** Exact arithmetic with a non-finite element: the generator *)

Section FiniteGenerator.
Variable rng : nat -> xreal.

Local Open Scope R_scope.

Lemma X_div_finite (a b : R) :
  b <> 0 -> num_div (Finite a) (Finite b) = Finite (a / b).
Proof.
  intros H. cbn. destruct (Req_dec_T b 0); [contradiction|reflexivity].
Qed.

Lemma X_acos_finite (a : R) :
  -1 <= a <= 1 -> Math_acos (Finite a) = Finite (acos a).
Proof.
  intros [H1 H2]. cbn.
  destruct (Rle_dec (-1) a); [|contradiction].
  destruct (Rle_dec a 1); [reflexivity|contradiction].
Qed.

Lemma X_sqrt_finite (a : R) :
  0 <= a -> Math_sqrt (Finite a) = Finite (sqrt a).
Proof.
  intros H. cbn. destruct (Rle_dec 0 a); [reflexivity|contradiction].
Qed.

Lemma R_floor_IZR (n : Z) : RealArith.R_floor (IZR n) = IZR n.
Proof.
  unfold RealArith.R_floor. f_equal. symmetry. apply Int_part_spec. lra.
Qed.

Lemma X_pow_finite (x : R) (n : Z) :
  (0 <= n)%Z ->
  Math_pow (Finite x) (Finite (IZR n))
  = Finite (RealArith.R_pow x (IZR n)).
Proof.
  intros H. cbn. rewrite R_floor_IZR.
  destruct (Req_dec_T (IZR n) (IZR n)) as [_|E]; [|contradiction].
  destruct (Req_dec_T x 0); [|reflexivity].
  destruct (Rle_dec 0 (IZR n)) as [_|E]; [reflexivity|].
  exfalso. apply E. apply IZR_le in H. exact H.
Qed.

Lemma X_rem_finite (a b : R) :
  b <> 0 -> num_rem (Finite a) (Finite b) = Finite (RealArith.R_rem a b).
Proof.
  intros H. cbn. destruct (Req_dec_T b 0); [contradiction|reflexivity].
Qed.

(** A draw scaled to [[min, max)]. *)
Lemma random_finite (Hrng : unit_draws rng) (min max : R) (k : nat) :
  exists r, 0 <= r < 1 /\
            random rng (Finite min) (Finite max) k
            = Some (Finite (r * (max - min) + min), S k).
Proof.
  destruct (Hrng k) as (r & Hr & Hb). exists r. split; [exact Hb|].
  unfold random, bind, Math_random, ret. rewrite Hr. reflexivity.
Qed.

(** The default branch, exact arithmetic with a non-finite element. *)
Lemma default_fills_cube_finite (shape : string) (count : nat) :
  switch_case shape = None ->
  unit_draws rng ->
  exists buf,
    generateParticles rng shape count = Some buf /\
    length buf = (count * 3)%nat /\
    Forall in_cube buf.
Proof.
  intros Hs Hrng.
  destruct (@generateParticles_total _ _ _ rng shape count) as [buf Hbuf].
  { intros i k _. apply point_total. rewrite Hs. discriminate. }
  exists buf. split; [exact Hbuf|].
  apply generateParticles_spec in Hbuf. destruct Hbuf as [Hlen Hpts].
  split; [exact Hlen|].
  apply buffer_Forall with (count := count); [exact Hlen|].
  intros j Hj. destruct (Hpts j Hj) as (kj & p & kj' & Hp & Hh).
  rewrite Hs in Hp. cbv beta iota delta [point default_point bind] in Hp.
  change (int (-10)) with (Finite (-10)) in Hp.
  change (int 10) with (Finite 10) in Hp.
  destruct (random_finite Hrng (-10) 10 kj) as (r1 & Hr1 & E1).
  destruct (random_finite Hrng (-10) 10 (S kj)) as (r2 & Hr2 & E2).
  destruct (random_finite Hrng (-10) 10 (S (S kj))) as (r3 & Hr3 & E3).
  rewrite E1, E2, E3 in Hp. unfold ret in Hp.
  inversion Hp; subst; clear Hp.
  unfold holds_point in Hh. cbn [Math_fround X_Arith] in Hh.
  do 3 eexists. repeat split; try apply Hh;
    eexists; (split; [reflexivity|lra]).
Qed.
End FiniteGenerator.

Section StoredDefault.
Import Binary32.
Variable rng : nat -> R.
Hypothesis Hrng : forall k, (0 <= rng k < 1)%R.

Local Open Scope R_scope.

(** The default branch with the binary32 store. *)
Lemma default_fills_cube_stored (shape : string) (count : nat) :
  switch_case shape = None ->
  exists buf,
    @generateParticles R S_Arith R_MathLib rng shape count = Some buf /\
    length buf = (count * 3)%nat /\
    Forall (fun v => -10 <= v <= 10) buf.
Proof.
  intros Hs.
  destruct (@generateParticles_total R S_Arith R_MathLib rng shape count)
    as [buf Hbuf].
  { intros i k _. apply point_total. rewrite Hs. discriminate. }
  exists buf. split; [exact Hbuf|].
  apply generateParticles_spec in Hbuf. destruct Hbuf as [Hlen Hpts].
  split; [exact Hlen|].
  apply buffer_Forall with (count := count); [exact Hlen|].
  intros j Hj. destruct (Hpts j Hj) as (kj & p & kj' & Hp & Hh).
  rewrite Hs in Hp.
  cbv beta iota delta [point default_point bind random Math_random ret]
    in Hp.
  inversion Hp; subst; clear Hp.
  unfold holds_point in Hh.
  cbv [int num_of_Z num_add num_sub num_mul Math_fround S_Arith] in Hh.
  pose proof (Hrng kj) as H1. pose proof (Hrng (S kj)) as H2.
  pose proof (Hrng (S (S kj))) as H3.
  destruct Hh as (Hx & Hy & Hz).
  do 3 eexists.
  split; [exact Hx|]. split; [exact Hy|]. split; [exact Hz|].
  split; [|split];
    apply (Rabs_bounds _ 10), R_fround_bound_10, Rabs_le; lra.
Qed.
End StoredDefault.


(** ** Every branch returns finite coordinates *)

Arguments XArith.lift1 f !a /.
Arguments XArith.lift2 f !a !b /.

(** The total operations compute on finite arguments. *)
Ltac x_total :=
  cbn [num_add num_sub num_mul num_neg Math_abs Math_sin Math_cos Math_exp
       Math_cbrt Math_floor Math_PI num_of_Z Math_fround X_Arith X_MathLib
       XArith.lift1 XArith.lift2].

(** The side conditions of the partial operations. *)
Ltac x_side :=
  first [ lra | apply not_0_IZR; lia
        | apply Rplus_le_le_0_compat; apply Rle_0_sqr | nra ].

Ltac x_partial :=
  match goal with
  | |- context [num_div (Finite ?a) (Finite ?b)] =>
      rewrite (X_div_finite a b) by x_side
  | |- context [Math_acos (Finite ?a)] =>
      rewrite (X_acos_finite a) by x_side
  | |- context [Math_sqrt (Finite ?a)] =>
      rewrite (X_sqrt_finite a) by x_side
  | |- context [Math_pow (Finite ?a) (Finite (IZR ?n))] =>
      rewrite (X_pow_finite a n) by lia
  | |- context [num_rem (Finite ?a) (Finite ?b)] =>
      rewrite (X_rem_finite a b) by x_side
  end.

(** A draw is a finite number in [[0, 1)]. *)
Ltac x_draw Hrng :=
  match goal with
  | |- context [?rng ?k] =>
      match type of Hrng with
      | unit_draws rng =>
          let r := fresh "r" in
          let Hr := fresh "Hr" in
          let Hr0 := fresh "Hr0" in
          let Hr1 := fresh "Hr1" in
          destruct (Hrng k) as (r & Hr & Hr0 & Hr1); rewrite Hr; clear Hr
      end
  end.

Ltac x_branch :=
  match goal with
  | |- context [if ?b then _ else _] => destruct b
  end.

Ltac x_norm Hrng :=
  repeat first [ progress x_total | x_partial | x_draw Hrng | x_branch ].

Ltac x_point Hrng :=
  unfold finite_point;
  cbv beta iota zeta delta
    [point Sphere_point Mobius_point Heart_point Galaxy_point DNA_point
     Klein_point Trefoil_point Clifford_point Hourglass_point Warp_point
     Quantum_point Flower_point BlackHole_point Lissajous_point
     GravityWave_point Hypercube_point Penrose_point
     bind random Math_random ret int idx dec];
  x_norm Hrng;
  do 4 eexists; reflexivity.

Section FinitePoints.
Variable rng : nat -> xreal.
Hypothesis Hrng : unit_draws rng.

Local Open Scope R_scope.

(** The parameter [t = i / count] of a point. *)
Lemma t_range (count i : nat) :
  (i < count)%nat -> 0 <= IZR (Z.of_nat i) / IZR (Z.of_nat count) < 1.
Proof.
  intros Hi.
  assert (H0 : 0 < IZR (Z.of_nat count)) by (apply IZR_lt; lia).
  assert (H1 : 0 <= IZR (Z.of_nat i)) by (apply IZR_le; lia).
  assert (H2 : IZR (Z.of_nat i) < IZR (Z.of_nat count)) by (apply IZR_lt; lia).
  split.
  - apply Rmult_le_pos; [lra|]. apply Rlt_le, Rinv_0_lt_compat; lra.
  - apply Rmult_lt_reg_r with (IZR (Z.of_nat count)); [lra|].
    unfold Rdiv. rewrite Rmult_assoc, Rinv_l by lra. lra.
Qed.

Lemma Lorenz_loop_finite (n : nat) :
  forall a b c : R,
    exists a' b' c',
      Lorenz_loop n (Finite a, Finite b, Finite c)
      = (Finite a', Finite b', Finite c').
Proof.
  induction n as [|n IH]; intros a b c; cbn [Lorenz_loop].
  - do 3 eexists; reflexivity.
  - cbv beta iota zeta delta [Lorenz_step int dec]. x_norm Hrng. apply IH.
Qed.

Lemma Rossler_loop_finite (n : nat) :
  forall a b c : R,
    exists a' b' c',
      Rossler_loop n (Finite a, Finite b, Finite c)
      = (Finite a', Finite b', Finite c').
Proof.
  induction n as [|n IH]; intros a b c; cbn [Rossler_loop].
  - do 3 eexists; reflexivity.
  - cbv beta iota zeta delta [Rossler_step int dec]. x_norm Hrng. apply IH.
Qed.

(** The index the chaos game computes is 0, 1, 2 or 3. *)
Lemma corner_lookup (r : R) :
  0 <= r < 1 ->
  exists cx cy cz,
    array_get corners (Math_floor (Finite r * int 4)%js)
    = Some (mkVector3 (Finite cx) (Finite cy) (Finite cz)).
Proof.
  intros Hr.
  cbv beta iota zeta delta [int]. x_total.
  unfold RealArith.R_floor.
  destruct (base_Int_part (r * 4)) as [Hlo Hhi].
  assert (Hn : (0 <= Int_part (r * 4) <= 3)%Z).
  { split.
    - apply Z.lt_succ_r. apply lt_IZR. rewrite succ_IZR. lra.
    - apply Z.lt_succ_r. apply lt_IZR. simpl. lra. }
  assert (Hc : (Int_part (r * 4) = 0 \/ Int_part (r * 4) = 1 \/
                Int_part (r * 4) = 2 \/ Int_part (r * 4) = 3)%Z) by lia.
  unfold array_get, corners, array_get_from, idx, int.
  cbn [num_eq num_of_Z X_Arith XArith.X_eq Z.of_nat Pos.of_succ_nat
       Pos.succ].
  unfold RealArith.R_eq.
  destruct Hc as [E|[E|[E|E]]]; rewrite E;
    repeat match goal with
           | |- context [Req_dec_T ?a ?b] =>
               destruct (Req_dec_T a b); try lra
           end;
    do 3 eexists; reflexivity.
Qed.

Lemma chaos_game_finite (steps : nat) :
  forall (px py pz : R) (k : nat),
    exists a b c k',
      chaos_game rng steps (mkVector3 (Finite px) (Finite py) (Finite pz)) k
      = Some (mkVector3 (Finite a) (Finite b) (Finite c), k').
Proof.
  induction steps as [|steps IH]; intros px py pz k; cbn [chaos_game].
  - do 4 eexists; reflexivity.
  - unfold bind, Math_random.
    destruct (Hrng k) as (r & Hr & Hb). rewrite Hr.
    destruct (corner_lookup r Hb) as (cx & cy & cz & Hc). rewrite Hc.
    cbv beta iota zeta delta [lerp vx vy vz int dec]. x_norm Hrng.
    apply IH.
Qed.

Lemma Sierpinski_point_finite (count i k : nat) :
  finite_point rng Sierpinski count i k.
Proof.
  unfold finite_point.
  cbv beta iota zeta delta [point Sierpinski_point bind random Math_random
                            ret int].
  x_norm Hrng.
  match goal with
  | |- context [chaos_game rng 5 (mkVector3 (Finite ?a) (Finite ?b)
                                            (Finite ?c)) ?k'] =>
      destruct (chaos_game_finite 5 a b c k') as (x & y & z & k2 & E);
      rewrite E
  end.
  do 4 eexists; reflexivity.
Qed.

Lemma Lorenz_point_finite (count i k : nat) :
  finite_point rng Lorenz count i k.
Proof.
  unfold finite_point. cbv beta iota delta [point].
  destruct (Nat.eq_dec (i mod 100) 0) as [E|E].
  - rewrite Lorenz_point_reset by exact E. do 4 eexists; reflexivity.
  - rewrite Lorenz_point_orbit by exact E. unfold Lorenz_sample.
    destruct (Lorenz_loop_finite (50 + i mod 2000) 1 1 1)
      as (a & b & c & El).
    change (@int xreal _ 1) with (Finite 1). rewrite El.
    do 4 eexists; reflexivity.
Qed.

Lemma Rossler_point_finite (count i k : nat) :
  finite_point rng Rossler count i k.
Proof.
  unfold finite_point. cbv beta iota delta [point].
  rewrite Rossler_point_orbit. unfold Rossler_sample.
  destruct (Rossler_loop_finite (100 + i mod 3000) 1 1 1)
    as (a & b & c & El).
  change (@int xreal _ 1) with (Finite 1). rewrite El.
  do 4 eexists; reflexivity.
Qed.

(** Every member of the enumeration, every index below the count, every
    number of draws made. *)
Lemma point_finite (s : ShapeType) (count i k : nat) :
  (i < count)%nat -> finite_point rng s count i k.
Proof.
  intros Hi. pose proof (t_range count i Hi) as Ht.
  destruct s;
    first [ apply Sierpinski_point_finite
          | apply Lorenz_point_finite
          | apply Rossler_point_finite
          | x_point Hrng ].
Qed.

End FinitePoints.

(** ** binary64: the attractor branches *)

Section FloatAttractors.
Context {M : MathLib PrimFloat.float}.
Variable rng : nat -> PrimFloat.float.

Lemma orbit_check_sound {T : Type} (step : T -> T) (ok : T -> bool)
    (N : nat) :
  forall s, orbit_check step ok N s = true ->
            forall n, n <= N -> ok (repeat_fn step n s) = true.
Proof.
  induction N as [|N IH]; intros s H n Hn; simpl in H;
    apply andb_prop in H; destruct H as [H0 H1].
  - replace n with 0 by lia. exact H0.
  - destruct n as [|n]; [exact H0|]. simpl. apply IH; [exact H1|lia].
Qed.

Lemma Lorenz_loop_repeat (n : nat) :
  forall s : PrimFloat.float * PrimFloat.float * PrimFloat.float,
    Lorenz_loop n s = repeat_fn Lorenz_step n s.
Proof. induction n as [|n IH]; intros s; simpl; auto. Qed.

Lemma Rossler_loop_repeat (n : nat) :
  forall s : PrimFloat.float * PrimFloat.float * PrimFloat.float,
    Rossler_loop n s = repeat_fn Rossler_step n s.
Proof. induction n as [|n IH]; intros s; simpl; auto. Qed.

Lemma Lorenz_orbit_checked :
  orbit_check Lorenz_step Lorenz_ok 2049 (int 1, int 1, int 1) = true.
Proof. vm_compute. reflexivity. Qed.

Lemma Rossler_orbit_checked :
  orbit_check Rossler_step Rossler_ok 3099 (int 1, int 1, int 1) = true.
Proof. vm_compute. reflexivity. Qed.

Lemma Lorenz_sample_stored_finite (i : nat) :
  stored_finite (Lorenz_sample i) = true.
Proof.
  unfold Lorenz_sample. rewrite Lorenz_loop_repeat.
  pose proof (orbit_check_sound Lorenz_step Lorenz_ok 2049 _
                Lorenz_orbit_checked (50 + i mod 2000)) as H.
  pose proof (Nat.mod_upper_bound i 2000 ltac:(lia)) as Hm.
  specialize (H ltac:(lia)).
  destruct (repeat_fn Lorenz_step (50 + i mod 2000) (int 1, int 1, int 1))
    as [[x y] z].
  exact H.
Qed.

Lemma Rossler_sample_stored_finite (i : nat) :
  stored_finite (Rossler_sample i) = true.
Proof.
  unfold Rossler_sample. rewrite Rossler_loop_repeat.
  pose proof (orbit_check_sound Rossler_step Rossler_ok 3099 _
                Rossler_orbit_checked (100 + i mod 3000)) as H.
  pose proof (Nat.mod_upper_bound i 3000 ltac:(lia)) as Hm.
  specialize (H ltac:(lia)).
  destruct (repeat_fn Rossler_step (100 + i mod 3000) (int 1, int 1, int 1))
    as [[x y] z].
  exact H.
Qed.

Lemma stored_finite_entries
    (buf : list PrimFloat.float) (j : nat)
    (p : PrimFloat.float * PrimFloat.float * PrimFloat.float) :
  holds_point buf j p -> stored_finite p = true ->
  exists x y z,
    nth_error buf (j * 3) = Some x /\
    nth_error buf (j * 3 + 1) = Some y /\
    nth_error buf (j * 3 + 2) = Some z /\
    F_is_finite x = true /\ F_is_finite y = true /\ F_is_finite z = true.
Proof.
  destruct p as [[x y] z]. unfold holds_point, stored_finite.
  intros (Hx & Hy & Hz) H.
  apply andb_prop in H. destruct H as [H Hfz].
  apply andb_prop in H. destruct H as [Hfx Hfy].
  do 3 eexists. repeat split; eauto.
Qed.

(** In the arithmetic the program runs (binary64, binary32 stores) and
    whatever the functions of [Math] return, [generateParticles] on
    Lorenz and on Rossler returns, for every count, a buffer of
    [3 * count] finite numbers. *)
Theorem attractors_finite_binary64 (count : nat) :
  (exists buf,
      generateParticles rng (ShapeType_value Lorenz) count = Some buf /\
      length buf = 3 * count /\
      Forall (fun v => F_is_finite v = true) buf) /\
  (exists buf,
      generateParticles rng (ShapeType_value Rossler) count = Some buf /\
      length buf = 3 * count /\
      Forall (fun v => F_is_finite v = true) buf).
Proof.
  split.
  - destruct (@generateParticles_total _ _ _ rng (ShapeType_value Lorenz)
                count) as [buf Hbuf].
    { intros i k _. apply point_total. discriminate. }
    exists buf. split; [exact Hbuf|].
    apply generateParticles_spec in Hbuf. destruct Hbuf as [Hlen Hpts].
    split; [lia|].
    apply buffer_Forall with (count := count); [exact Hlen|].
    intros j Hj. destruct (Hpts j Hj) as (kj & p & kj' & Hp & Hh).
    apply (stored_finite_entries buf j p Hh).
    simpl in Hp. destruct (Nat.eq_dec (j mod 100) 0) as [E|E].
    + rewrite Lorenz_point_reset in Hp by exact E.
      inversion Hp; subst. vm_compute. reflexivity.
    + rewrite Lorenz_point_orbit in Hp by exact E.
      inversion Hp; subst. apply Lorenz_sample_stored_finite.
  - destruct (@generateParticles_total _ _ _ rng (ShapeType_value Rossler)
                count) as [buf Hbuf].
    { intros i k _. apply point_total. discriminate. }
    exists buf. split; [exact Hbuf|].
    apply generateParticles_spec in Hbuf. destruct Hbuf as [Hlen Hpts].
    split; [lia|].
    apply buffer_Forall with (count := count); [exact Hlen|].
    intros j Hj. destruct (Hpts j Hj) as (kj & p & kj' & Hp & Hh).
    apply (stored_finite_entries buf j p Hh).
    simpl in Hp. rewrite Rossler_point_orbit in Hp.
    inversion Hp; subst. apply Rossler_sample_stored_finite.
Qed.
End FloatAttractors.

(** ** The loops run on rationals *)

Section RationalRuns.
Local Open Scope Q_scope.

Example Lorenz_first_step :
  @Lorenz_step Q _ (1, 1, 1) = (1, 539 # 500, 199 # 200).
Proof. vm_compute. reflexivity. Qed.

Example Rossler_first_step :
  @Rossler_step Q _ (1, 1, 1) = (49 # 50, 253 # 250, 191 # 200).
Proof. vm_compute. reflexivity. Qed.

Example tick_moves_five_percent :
  tick 1 (mkMorphState [0; 0; 0] [1; 0; 0])
  = (mkMorphState [1 # 20; 0; 0] [1; 0; 0], true).
Proof. vm_compute. reflexivity. Qed.

Example two_ticks :
  positions (ticks 1 2 (mkMorphState [0; 0; 0] [1; 0; 0]))
  = [39 # 400; 0; 0].
Proof. vm_compute. reflexivity. Qed.

Example tick_leaves_near_component :
  tick 1 (mkMorphState [0; 0; 0] [1 # 2000; 0; 0])
  = (mkMorphState [0; 0; 0] [1 # 2000; 0; 0], false).
Proof. vm_compute. reflexivity. Qed.

Example tick_leaves_boundary_component :
  tick 1 (mkMorphState [0; 0; 0] [1 # 1000; 0; 0])
  = (mkMorphState [0; 0; 0] [1 # 1000; 0; 0], false).
Proof. vm_compute. reflexivity. Qed.
End RationalRuns.

(** ** The theorems at concrete inputs *)

Section Witnesses.
Local Open Scope R_scope.

Lemma half_draws : unit_draws (fun _ => Finite (1 / 2)).
Proof. intros k. exists (1 / 2). split; [reflexivity|lra]. Defined.



(** C10 in exact arithmetic at count 101: the points 0 and 100. *)
Lemma Lorenz_reset_points_at_origin_witness :
  exists buf,
    generateParticles (fun _ => 0) (ShapeType_value Lorenz) 101 = Some buf /\
    forall i, (i < 101)%nat -> (i mod 100 = 0)%nat ->
      nth_error buf (i * 3) = Some 0 /\
      nth_error buf (i * 3 + 1) = Some 0 /\
      nth_error buf (i * 3 + 2) = Some 0.
Proof.
  exact (@Lorenz_reset_points_at_origin R _ _ (fun _ => 0) 101
           ltac:(lia) eq_refl).
Defined.

Lemma small_bounded64 : bounded64 [0; 0; 0] /\ bounded64 [1; 0; 0].
Proof.
  split; repeat constructor; try (rewrite Rabs_R0; lra);
    rewrite Rabs_right; lra.
Defined.



(** [generateParticles_returns] at Clifford, count 2, in exact arithmetic. *)
Lemma generateParticles_returns_witness :
  exists buf,
    generateParticles (fun _ => 0) (ShapeType_value Clifford) 2 = Some buf /\
    length buf = 6%nat.
Proof.
  apply (@generateParticles_returns R _ _ (fun _ => 0)
           (ShapeType_value Clifford) 2).
  discriminate.
Defined.
End Witnesses.
